(** * Ladon: the policy decision engine and its Redis policy store

    A shallow embedding of the decision path of ory-am/ladon
    ([IsAllowed], [doPoliciesAllow], [Match], [passesConditions]) in its two
    revisions found in the repository, and of [RedisManager.Create].

    Conventions.
    - A Go result pair [(v, err)] is a pair [(v, o)] with [o : option error];
      [None] is Go's [nil].
    - A Go [map] is a [gmap]; a [range] over it visits the entries in an
      order the runtime picks, so loops over a map take the visiting order
      as a list and are proved independent of it.
    - Collaborators that live outside the repository (the pattern compiler
      of ory-am/common, the Redis client, encoding/json) are interfaces:
      type classes whose instances are supplied by the caller. *)

From stdpp Require Import gmap strings list fin_maps.
From Stdlib Require Import Ascii.

Local Open Scope string_scope.
Local Open Scope list_scope.

(** ** Errors *)

(** Modelled from the spec: the sentinel [ErrForbidden] is declared outside
    the files at hand; it marks the forbidden kind of result and is told
    apart from every other error.

    The type collects Go's [error] values that the decision path produces
    or passes on: [ErrForbidden]; [ErrCompile], the error of a failed pattern
    compilation with its message; [ErrString], a plain message error
    ([errors.New "..."] of pkg/errors, driver errors); and [errors_New],
    go-errors' [errors.New(err)], which wraps an error value together with
    a stack trace. *)
Inductive error : Type :=
  | ErrForbidden
  | ErrCompile (msg : string)
  | ErrString (msg : string)
  | errors_New (e : error).

(** ** Requests, conditions, policies *)

Record Request : Type := {
  Resource : string;
  Action : string;
  Subject : string;
  Context : gmap string string
}.

(** The [Condition] interface: one method, returning a [bool]. *)
Record Condition : Type := { Fulfills : Request → bool }.

(** Modelled from the spec: the type [Conditions] is declared outside the
    files at hand; the specification describes it as a mapping from
    condition name to condition. *)
Abbreviation Conditions := (gmap string Condition).

(** The [Policy] interface. The methods are getters, so an implementation is
    given by the values they return. *)
Record Policy : Type := {
  GetID : string;
  GetDescription : string;
  GetSubjects : list string;
  AllowAccess : bool;
  GetEffect : string;
  GetResources : list string;
  GetActions : list string;
  GetConditions : Conditions;
  GetStartDelimiter : ascii;
  GetEndDelimiter : ascii
}.

Abbreviation Policies := (list Policy).

(** Modelled from the spec: the constant the method
    [DefaultPolicy.AllowAccess] compares the effect with is declared outside
    the files at hand; the effect is one of allow and deny. *)
Definition AllowAccessEffect : string := "allow".
Definition DenyAccessEffect : string := "deny".

Module DefaultPolicy.

Record t : Type := {
  ID : string;
  Description : string;
  Subjects : list string;
  Effect : string;
  Resources : list string;
  Actions : list string;
  Conditions : gmap string Condition
}.

Definition GetID (p : t) : string := ID p.
Definition GetDescription (p : t) : string := Description p.
Definition GetSubjects (p : t) : list string := Subjects p.
Definition AllowAccess (p : t) : bool :=
  bool_decide (Effect p = AllowAccessEffect).
Definition GetEffect (p : t) : string := Effect p.
Definition GetResources (p : t) : list string := Resources p.
Definition GetActions (p : t) : list string := Actions p.
Definition GetConditions (p : t) : gmap string Condition := Conditions p.
Definition GetEndDelimiter (p : t) : ascii := ">"%char.
Definition GetStartDelimiter (p : t) : ascii := "<"%char.

(** [*DefaultPolicy] implements [Policy]. *)
Definition policy (p : t) : Policy :=
  Build_Policy (GetID p) (GetDescription p) (GetSubjects p) (AllowAccess p)
    (GetEffect p) (GetResources p) (GetActions p) (GetConditions p)
    (GetStartDelimiter p) (GetEndDelimiter p).

End DefaultPolicy.

Coercion DefaultPolicy.policy : DefaultPolicy.t >-> Policy.

(** ** The pattern compiler (collaborator) *)

(** [compiler.CompileRegex] of ory-am/common and [regexp.Regexp.MatchString].
    A failed compilation is reported by its message. *)
Class RegexCompiler : Type := {
  Regexp : Type;
  CompileRegex : string → ascii → ascii → Regexp + string;
  MatchString : Regexp → string → bool
}.

(** ** The policy store (collaborator) *)

(** The part of the [Manager] interface that the decision path calls. *)
Record Manager : Type := {
  FindPoliciesForSubject : string → Policies * option error
}.

(** ** Matching a needle against a list of patterns *)

Section Matching.
Context `{RegexCompiler}.

(** [Match]: both revisions of the engine define it with the same body. The
    loop returns from inside at the first pattern that fails to compile or
    that matches. *)
Fixpoint Match (p : Policy) (haystack : list string) (needle : string)
  : bool * option error :=
  match haystack with
  | [] => (false, None)
  | h :: haystack' =>
      match CompileRegex h (GetStartDelimiter p) (GetEndDelimiter p) with
      | inr msg => (false, Some (ErrCompile msg))
      | inl reg =>
          if MatchString reg needle then (true, None)
          else Match p haystack' needle
      end
  end.

End Matching.

(** ** Conditions *)

(** The loop of [passesConditions] over the entries of the condition map, in
    the order [cs] in which the [range] statement visits them. *)
Fixpoint passesConditions_range (cs : list (string * Condition)) (r : Request)
  : bool :=
  match cs with
  | [] => true
  | (_, condition) :: cs' =>
      if negb (Fulfills condition r) then false
      else passesConditions_range cs' r
  end.

(** The visiting orders a [range] over the map [m] can take: every entry
    once. *)
Definition range_order (m : Conditions) (cs : list (string * Condition)) : Prop :=
  cs ≡ₚ map_to_list m.

Definition passesConditions (p : Policy) (r : Request) : bool :=
  passesConditions_range (map_to_list (GetConditions p)) r.

(** ** Control flow of a loop body *)

(** How one pass through the body of the loop of [doPoliciesAllow] ends:
    with [continue], with [return err], or by running off its end, past the
    assignment [allowed = true]. *)
Inductive flow : Type :=
  | Continue
  | Return (err : error)
  | SetAllowed.

(** ** The decision engine, current revision *)

Module Ladon.
Section Engine.
Context `{RegexCompiler}.

(** The body of [for _, p := range policies]. The statements after the
    resource check are reached from both of its passing branches; they are
    named [conditions_and_effect] and written once. *)
Definition doPoliciesAllow_body (r : Request) (p : Policy) : flow :=
  match Match p (GetActions p) (Action r) with
  | (_, Some err) => Return (errors_New err)
  | (pm, None) =>
    if negb pm then Continue else
    match Match p (GetSubjects p) (Subject r) with
    | (_, Some err) => Return err
    | (sm, None) =>
      if negb sm && bool_decide (0 < length (GetSubjects p)) then Continue else
      let conditions_and_effect :=
        if negb (passesConditions p r) then Continue else
        if negb (AllowAccess p) then Return (errors_New ErrForbidden) else
        SetAllowed in
      if bool_decide (Resource r = "") && bool_decide (length (GetResources p) = 0)
      then conditions_and_effect
      else
        match Match p (GetResources p) (Resource r) with
        | (_, Some err) => Return (errors_New err)
        | (rm, None) => if negb rm then Continue else conditions_and_effect
        end
    end
  end.

(** The loop, with the local variable [allowed] passed along, and the two
    statements after it. *)
Fixpoint doPoliciesAllow_loop (r : Request) (policies : Policies) (allowed : bool)
  : option error :=
  match policies with
  | [] => if negb allowed then Some (errors_New ErrForbidden) else None
  | p :: policies' =>
      match doPoliciesAllow_body r p with
      | Continue => doPoliciesAllow_loop r policies' allowed
      | Return err => Some err
      | SetAllowed => doPoliciesAllow_loop r policies' true
      end
  end.

Definition doPoliciesAllow (r : Request) (policies : Policies) : option error :=
  doPoliciesAllow_loop r policies false.

Definition IsAllowed (g : Manager) (r : Request) : option error :=
  match FindPoliciesForSubject g (Subject r) with
  | (_, Some err) => Some (errors_New err)
  | (policies, None) => doPoliciesAllow r policies
  end.

End Engine.
End Ladon.

(** ** The decision engine, earlier revision *)

(** The earlier revision checks the resource first and without the case for
    an empty resource; it names the methods [HasAccess] and [FullFills]. *)
Module LadonLegacy.
Section Engine.
Context `{RegexCompiler}.

Definition HasAccess (p : Policy) : bool := AllowAccess p.
Definition FullFills (c : Condition) (r : Request) : bool := Fulfills c r.

Fixpoint passesConditions_range (cs : list (string * Condition)) (r : Request)
  : bool :=
  match cs with
  | [] => true
  | (_, condition) :: cs' =>
      if negb (FullFills condition r) then false
      else passesConditions_range cs' r
  end.

Definition passesConditions (p : Policy) (r : Request) : bool :=
  passesConditions_range (map_to_list (GetConditions p)) r.

Definition doPoliciesAllow_body (r : Request) (p : Policy) : flow :=
  match Match p (GetResources p) (Resource r) with
  | (_, Some err) => Return (errors_New err)
  | (rm, None) =>
    if negb rm then Continue else
    match Match p (GetActions p) (Action r) with
    | (_, Some err) => Return (errors_New err)
    | (pm, None) =>
      if negb pm then Continue else
      match Match p (GetSubjects p) (Subject r) with
      | (_, Some err) => Return err
      | (sm, None) =>
        if negb sm && bool_decide (0 < length (GetSubjects p)) then Continue else
        if negb (passesConditions p r) then Continue else
        if negb (HasAccess p) then Return (errors_New ErrForbidden) else
        SetAllowed
      end
    end
  end.

Fixpoint doPoliciesAllow_loop (r : Request) (policies : Policies) (allowed : bool)
  : option error :=
  match policies with
  | [] => if negb allowed then Some (errors_New ErrForbidden) else None
  | p :: policies' =>
      match doPoliciesAllow_body r p with
      | Continue => doPoliciesAllow_loop r policies' allowed
      | Return err => Some err
      | SetAllowed => doPoliciesAllow_loop r policies' true
      end
  end.

Definition doPoliciesAllow (r : Request) (policies : Policies) : option error :=
  doPoliciesAllow_loop r policies false.

Definition IsAllowed (g : Manager) (r : Request) : option error :=
  match FindPoliciesForSubject g (Subject r) with
  | (_, Some err) => Some (errors_New err)
  | (policies, None) => doPoliciesAllow r policies
  end.

End Engine.
End LadonLegacy.

(** ** The Redis policy store: creation *)

(** The command of the Redis client that [Create] issues, on an explicit
    store state: [HSetNX key field value] answers with the pair that
    [BoolCmd.Result] returns and leaves a new state. *)
Class RedisClient : Type := {
  redis_state : Type;
  HSetNX : string → string → string → redis_state → (bool * option error) * redis_state
}.

(** [json.Marshal] on a policy. *)
Class JSONEncoder : Type := {
  json_Marshal : Policy → string * option error
}.

Module RedisManager.
Section Store.
Context `{RedisClient} `{JSONEncoder}.

Record t : Type := { keyPrefix : string }.

Definition redisPolicies : string := "ladon:policies".

Definition redisPoliciesKey (m : t) : string := keyPrefix m +:+ redisPolicies.

Definition Create (m : t) (policy : Policy) (db : redis_state)
  : option error * redis_state :=
  match json_Marshal policy with
  | (_, Some err) => (Some err, db)
  | (payload, None) =>
      let '((wasKeySet, err), db') :=
        HSetNX (redisPoliciesKey m) (GetID policy) payload db in
      if negb wasKeySet then (Some (ErrString "Policy exists"), db')
      else match err with
           | Some e => (Some e, db')
           | None => (None, db')
           end
  end.

End Store.
End RedisManager.

(** ** Reference instances of the collaborators *)

(** The instances below let the engine run on concrete policies. They stand
    for the collaborators on the inputs used in the examples of this file;
    the general results are stated for every instance. *)

Module RefCompiler.

(** Modelled from the spec: the pattern compiler is a library outside the
    repository. A pattern is literal text with fragments of a regular
    expression between the two delimiters; literal text matches itself, a
    fragment is taken as written, the whole expression is anchored at both
    ends, and compilation fails on unbalanced delimiters or on a fragment
    that is not a regular expression. This instance reads fragments made of
    single characters and [.], each optionally followed by [*] or [+], and
    reports every other use of a metacharacter as a failure. *)
Inductive atom : Type :=
  | AnyChar
  | Char (c : ascii).

Inductive piece : Type :=
  | One (a : atom)
  | Star (a : atom)
  | Plus (a : atom).

Inductive segment : Type :=
  | Literal (text : list ascii)
  | Fragment (text : list ascii).

Definition newline : ascii := "010"%char.

Definition atom_matches (a : atom) (c : ascii) : bool :=
  match a with
  | AnyChar => negb (Ascii.eqb c newline)
  | Char c' => Ascii.eqb c c'
  end.

(** Cut a template at the outermost delimiters. [level] is the nesting
    depth, [acc] the text of the current segment, reversed. *)
Fixpoint segments (tpl : list ascii) (startDelim endDelim : ascii)
  (level : nat) (acc : list ascii) : option (list segment) :=
  match tpl with
  | [] =>
      match level with
      | 0 => Some [Literal (rev acc)]
      | S _ => None
      end
  | c :: tpl' =>
      if Ascii.eqb c startDelim then
        match level with
        | 0 => cons (Literal (rev acc)) <$> segments tpl' startDelim endDelim 1 []
        | S _ => segments tpl' startDelim endDelim (S level) (c :: acc)
        end
      else if Ascii.eqb c endDelim then
        match level with
        | 0 => None
        | 1 => cons (Fragment (rev acc)) <$> segments tpl' startDelim endDelim 0 []
        | S level' => segments tpl' startDelim endDelim level' (c :: acc)
        end
      else segments tpl' startDelim endDelim level (c :: acc)
  end.

Definition metachars : list ascii := String.list_ascii_of_string "\.+*?()|[]{}^$".

Definition is_meta (c : ascii) : bool := existsb (Ascii.eqb c) metachars.

Definition atom_of (c : ascii) : option atom :=
  if Ascii.eqb c "."%char then Some AnyChar
  else if is_meta c then None
  else Some (Char c).

Definition flush (pending : option atom) : list piece :=
  match pending with
  | Some a => [One a]
  | None => []
  end.

(** Read a fragment; [pending] is the atom read last, still waiting for a
    possible repetition sign. *)
Fixpoint fragment (text : list ascii) (pending : option atom)
  : option (list piece) :=
  match text with
  | [] => Some (flush pending)
  | c :: text' =>
      if Ascii.eqb c "*"%char then
        match pending with
        | Some a => cons (Star a) <$> fragment text' None
        | None => None
        end
      else if Ascii.eqb c "+"%char then
        match pending with
        | Some a => cons (Plus a) <$> fragment text' None
        | None => None
        end
      else
        match atom_of c with
        | Some a => app (flush pending) <$> fragment text' (Some a)
        | None => None
        end
  end.

Fixpoint assemble (segs : list segment) : option (list piece) :=
  match segs with
  | [] => Some []
  | Literal text :: segs' => app (map (λ c, One (Char c)) text) <$> assemble segs'
  | Fragment text :: segs' =>
      match fragment text None with
      | Some ps => app ps <$> assemble segs'
      | None => None
      end
  end.

Definition CompileRegex (tpl : string) (startDelim endDelim : ascii)
  : list piece + string :=
  match segments (String.list_ascii_of_string tpl) startDelim endDelim 0 [] with
  | None => inr ("Unbalanced braces in " +:+ tpl)
  | Some segs =>
      match assemble segs with
      | None => inr ("error parsing regexp in " +:+ tpl)
      | Some ps => inl ps
      end
  end.

(** Anchored matching by backtracking over the repetitions. *)
Fixpoint matches (ps : list piece) (s : list ascii) : bool :=
  match ps with
  | [] => match s with [] => true | _ :: _ => false end
  | One a :: ps' =>
      match s with
      | c :: s' => atom_matches a c && matches ps' s'
      | [] => false
      end
  | Star a :: ps' =>
      (fix star (s : list ascii) : bool :=
         matches ps' s ||
         match s with
         | c :: s' => atom_matches a c && star s'
         | [] => false
         end) s
  | Plus a :: ps' =>
      match s with
      | c :: s' =>
          atom_matches a c &&
          (fix star (s : list ascii) : bool :=
             matches ps' s ||
             match s with
             | c :: s' => atom_matches a c && star s'
             | [] => false
             end) s'
      | [] => false
      end
  end.

Definition MatchString (reg : list piece) (s : string) : bool :=
  matches reg (String.list_ascii_of_string s).

Definition compiler : RegexCompiler :=
  Build_RegexCompiler (list piece) CompileRegex MatchString.

End RefCompiler.

Module RefRedis.

(** An in-memory stand-in for the Redis client, a library outside the
    repository. A store holds hashes, each a map from field to value; the
    set-if-not-exists command writes the field when the hash has none of
    that name and reports whether it wrote. A store that cannot be reached
    ([outage]) answers every command with the zero value and its error. *)
Record store : Type := {
  hashes : gmap string (gmap string string);
  outage : option error
}.

Definition HSetNX (key field value : string) (db : store)
  : (bool * option error) * store :=
  match outage db with
  | Some e => ((false, Some e), db)
  | None =>
      let h := default ∅ (hashes db !! key) in
      match h !! field with
      | Some _ => ((false, None), db)
      | None =>
          ((true, None),
           {| hashes := <[key := <[field := value]> h]> (hashes db);
              outage := None |})
      end
  end.

Definition client : RedisClient := Build_RedisClient store HSetNX.

(** A stand-in for the encoder: it writes the identifier and the effect of
    the policy and never fails. *)
Definition Marshal (p : Policy) : string * option error :=
  ("{id:" +:+ GetID p +:+ ",effect:" +:+ GetEffect p +:+ "}", None).

Definition encoder : JSONEncoder := Build_JSONEncoder Marshal.

End RefRedis.

(** ** Example policies and requests *)

Module Examples.

Definition request (subject action resource : string) : Request :=
  {| Resource := resource; Action := action; Subject := subject; Context := ∅ |}.

Definition policy (id : string) (subjects actions resources : list string)
  (effect : string) : DefaultPolicy.t :=
  {| DefaultPolicy.ID := id;
     DefaultPolicy.Description := "";
     DefaultPolicy.Subjects := subjects;
     DefaultPolicy.Effect := effect;
     DefaultPolicy.Resources := resources;
     DefaultPolicy.Actions := actions;
     DefaultPolicy.Conditions := ∅ |}.

(** A store that answers every subject with the same policies. *)
Definition fixed_store (policies : Policies) : Manager :=
  {| FindPoliciesForSubject := λ _, (policies, None) |}.


Definition peter_all : Policy := policy "1" ["peter"] ["<.*>"] [] "allow".
Definition peter_view : Policy := policy "2" ["peter"] ["view"] ["<.*>"] "allow".
Definition peter_deny : Policy := policy "3" ["peter"] ["<.*>"] ["<.*>"] "deny".

End Examples.

(** ** What the patterns of a policy say *)

Section Patterns.
Context `{RegexCompiler}.

Definition compiles_to (p : Policy) (h : string) (reg : Regexp) : Prop :=
  CompileRegex h (GetStartDelimiter p) (GetEndDelimiter p) = inl reg.

Definition pattern_fails (p : Policy) (h : string) (msg : string) : Prop :=
  CompileRegex h (GetStartDelimiter p) (GetEndDelimiter p) = inr msg.

Definition pattern_matches (p : Policy) (h : string) (s : string) : Prop :=
  ∃ reg, compiles_to p h reg ∧ MatchString reg s = true.

Definition pattern_rejects (p : Policy) (h : string) (s : string) : Prop :=
  ∃ reg, compiles_to p h reg ∧ MatchString reg s = false.

(** At least one pattern of the list matches. *)
Definition any_matches (p : Policy) (L : list string) (s : string) : Prop :=
  ∃ h, h ∈ L ∧ pattern_matches p h s.

(** Every pattern of the list compiles and none matches. *)
Definition none_matches (p : Policy) (L : list string) (s : string) : Prop :=
  ∀ h, h ∈ L → pattern_rejects p h s.

(** The patterns a policy declares. *)
Definition patterns (p : Policy) : list string :=
  GetActions p ++ GetSubjects p ++ GetResources p.

Definition well_formed (p : Policy) : Prop :=
  ∀ h, h ∈ patterns p → ∃ reg, compiles_to p h reg.

(** [e] is the error of a pattern of a policy of [P] that fails to compile,
    as [Match] returns it or wrapped by the engine. *)
Definition compile_failure (P : Policies) (e : error) : Prop :=
  ∃ p h msg, p ∈ P ∧ h ∈ patterns p ∧ pattern_fails p h msg ∧
             (e = ErrCompile msg ∨ e = errors_New (ErrCompile msg)).

(** All conditions attached to the policy return true on the request. *)
Definition conditions_hold (p : Policy) (r : Request) : Prop :=
  map_Forall (λ _ c, Fulfills c r = true) (GetConditions p).

(** The policy matches the request on action, subject, resource and
    conditions, as the current revision checks them: an empty subject list
    is no restriction, and neither is an empty resource list when the
    request names no resource. *)
Definition matches (p : Policy) (r : Request) : Prop :=
  any_matches p (GetActions p) (Action r) ∧
  (GetSubjects p = [] ∨ any_matches p (GetSubjects p) (Subject r)) ∧
  ((Resource r = "" ∧ GetResources p = []) ∨
   any_matches p (GetResources p) (Resource r)) ∧
  conditions_hold p r.

(** The same for the earlier revision, which always asks for a matching
    resource pattern. *)
Definition legacy_matches (p : Policy) (r : Request) : Prop :=
  any_matches p (GetActions p) (Action r) ∧
  (GetSubjects p = [] ∨ any_matches p (GetSubjects p) (Subject r)) ∧
  any_matches p (GetResources p) (Resource r) ∧
  conditions_hold p r.

(** The policy passes every check of the loop body and contributes its
    effect: the pass ends past [allowed = true] for an allowing policy and
    returns the forbidden error for a denying one. *)
Definition applies (r : Request) (p : Policy) : Prop :=
  Ladon.doPoliciesAllow_body r p =
    if AllowAccess p then SetAllowed else Return (errors_New ErrForbidden).

Definition legacy_applies (r : Request) (p : Policy) : Prop :=
  LadonLegacy.doPoliciesAllow_body r p =
    if AllowAccess p then SetAllowed else Return (errors_New ErrForbidden).

(** The scan of [Match] over the list [L] stops at a pattern that matches:
    the patterns before it compile and do not match. *)
Definition scan_hits (p : Policy) (L : list string) (s : string) : Prop :=
  ∃ pre h post, L = pre ++ h :: post ∧ none_matches p pre s ∧
                pattern_matches p h s.

(** The scan stops at a pattern that fails to compile, with message [msg]. *)
Definition scan_fails (p : Policy) (L : list string) (s : string) (msg : string)
  : Prop :=
  ∃ pre h post, L = pre ++ h :: post ∧ none_matches p pre s ∧
                pattern_fails p h msg.



(** The outcome of a pass, read against what the patterns say. *)
Inductive body_outcome (matching : Prop) (p : Policy) : flow → Prop :=
  | outcome_skip : ¬ matching → body_outcome matching p Continue
  | outcome_allow :
      matching → AllowAccess p = true → body_outcome matching p SetAllowed
  | outcome_deny :
      matching → AllowAccess p = false →
      body_outcome matching p (Return (errors_New ErrForbidden))
  | outcome_error e :
      compile_failure [p] e → body_outcome matching p (Return e).

(** The result of the whole loop, started with the flag [allowed], read
    against what the patterns of the policies say: a compile error of one of
    them, the forbidden error because a denying policy matches, or, with no
    denying policy matching, nil when the flag was set or an allowing policy
    matches, and the forbidden error when nothing matches. *)
Definition verdict_classified (matching : Policy → Prop) (P : Policies)
  (allowed : bool) (res : option error) : Prop :=
  (∃ e, compile_failure P e ∧ res = Some e) ∨
  ((∃ p, p ∈ P ∧ matching p ∧ AllowAccess p = false) ∧
   res = Some (errors_New ErrForbidden)) ∨
  ((∀ p, p ∈ P → matching p → AllowAccess p = true) ∧
   (((allowed = true ∨ ∃ p, p ∈ P ∧ matching p) ∧ res = None) ∨
    (allowed = false ∧ (∀ p, p ∈ P → ¬ matching p) ∧
     res = Some (errors_New ErrForbidden)))).

(** The two revisions of the engine side by side. *)
Inductive revision : Type :=
  | Current
  | Earlier.

Definition IsAllowed_of (v : revision) : Manager → Request → option error :=
  match v with
  | Current => Ladon.IsAllowed
  | Earlier => LadonLegacy.IsAllowed
  end.

Definition matches_of (v : revision) : Policy → Request → Prop :=
  match v with
  | Current => matches
  | Earlier => legacy_matches
  end.

Definition applies_of (v : revision) : Request → Policy → Prop :=
  match v with
  | Current => applies
  | Earlier => legacy_applies
  end.

(** The resource check of a revision is passed by a scan that stops at a
    matching pattern, and in the current revision also by an empty resource
    list when the request names no resource. *)
Definition resource_passes (v : revision) (p : Policy) (r : Request) : Prop :=
  match v with
  | Current =>
      (Resource r = "" ∧ GetResources p = []) ∨
      scan_hits p (GetResources p) (Resource r)
  | Earlier => scan_hits p (GetResources p) (Resource r)
  end.

(** A check of well-formedness that runs. *)
Definition well_formedb (p : Policy) : bool :=
  forallb (λ h, match CompileRegex h (GetStartDelimiter p) (GetEndDelimiter p) with
                | inl _ => true
                | inr _ => false
                end) (patterns p).

(** Checks of [any_matches] and [matches] that run. *)
Definition any_matchesb (p : Policy) (L : list string) (s : string) : bool :=
  existsb (λ h, match CompileRegex h (GetStartDelimiter p) (GetEndDelimiter p) with
                | inl reg => MatchString reg s
                | inr _ => false
                end) L.



End Patterns.

(** ** Both revisions of the loop side by side *)

Definition doPoliciesAllow_of `{RegexCompiler} (v : revision)
  : Request → Policies → option error :=
  match v with
  | Current => Ladon.doPoliciesAllow
  | Earlier => LadonLegacy.doPoliciesAllow
  end.

Definition body_of `{RegexCompiler} (v : revision) : Request → Policy → flow :=
  match v with
  | Current => Ladon.doPoliciesAllow_body
  | Earlier => LadonLegacy.doPoliciesAllow_body
  end.

Definition loop_of `{RegexCompiler} (v : revision)
  : Request → Policies → bool → option error :=
  match v with
  | Current => Ladon.doPoliciesAllow_loop
  | Earlier => LadonLegacy.doPoliciesAllow_loop
  end.

(** ** The Redis policy store: lookup, removal, search *)

#[global] Instance error_eq_dec : EqDecision error.
Proof. solve_decision. Defined.

(** pkg/errors' [Wrap] (collaborator): a new error value around a non-nil
    error and a message. *)
Class PkgErrors : Type := {
  errors_Wrap : error → string → error
}.

(** [json.Unmarshal] into a [*DefaultPolicy] variable that starts as nil:
    the pointer it leaves ([None] is nil) and its error. *)
Class JSONDecoder : Type := {
  json_Unmarshal : string → option DefaultPolicy.t * option error
}.

(** The client's sentinel [redis.Nil], the reply for a field that is not
    there. *)
Definition redis_Nil : error := ErrString "redis: nil".

(** The other commands of the Redis client that the store issues. [HGet]
    answers with the pair that [StringCmd.Bytes] returns; [HDel] with what
    [IntCmd.Err] returns, and leaves a new state; [HScan], started at cursor
    zero without pattern or count and read through its iterator, with the
    values the iterator delivers one after the other and the error
    [ScanIterator.Err] reports once [Next] has answered false. *)
Class RedisHashClient `{RedisClient} : Type := {
  HGet : string → string → redis_state → string * option error;
  HDel : string → string → redis_state → option error * redis_state;
  HScan : string → redis_state → list string * option error
}.

(** How a call ends: it returns, or it panics (here: a method that reads a
    field is called on a nil [*DefaultPolicy]). *)
Inductive outcome (A : Type) : Type :=
  | Returns (a : A)
  | Panics.
Arguments Returns {A} a.
Arguments Panics {A}.

(** How the loop of [FindPoliciesForSubject] ends: by a [return] inside, by
    a panic, or with the iterator exhausted ([Next] answered false, in the
    loop condition or before the [break]) and the policies collected. *)
Inductive scan_end : Type :=
  | Returned (res : Policies * option error)
  | Panicked
  | Exhausted (ps : Policies).

Module RedisStore.
Section Store.
Context `{RedisHashClient} `{JSONDecoder} `{PkgErrors} `{RegexCompiler}.

Definition redisNotFound : error := ErrString "Not found".

(** The policy that comes back is the pointer the decoder left: nil when
    the payload is the JSON value null. *)
Definition redisUnmarshalPolicy (policy : string)
  : option DefaultPolicy.t * option error :=
  match json_Unmarshal policy with
  | (_, Some err) => (None, Some (errors_Wrap err ""))
  | (p, None) => (p, None)
  end.

Definition Get (m : RedisManager.t) (id : string) (db : redis_state)
  : option DefaultPolicy.t * option error :=
  let '(resp, err) := HGet (RedisManager.redisPoliciesKey m) id db in
  match err with
  | Some e =>
      if decide (e = redis_Nil) then (None, Some redisNotFound)
      else (None, Some (errors_Wrap e ""))
  | None => redisUnmarshalPolicy resp
  end.

Definition Delete (m : RedisManager.t) (id : string) (db : redis_state)
  : option error * redis_state :=
  HDel (RedisManager.redisPoliciesKey m) id db.

(** The loop [for iter.Next() { if !iter.Next() { break } ... }] over the
    values [items] the iterator delivers: the first [Next] steps onto a
    field name, the second onto its value. *)
Fixpoint FindPoliciesForSubject_loop (subject : string) (items : list string)
  (ps : Policies) : scan_end :=
  match items with
  | [] => Exhausted ps
  | _ :: [] => Exhausted ps
  | _ :: resp :: items' =>
      match redisUnmarshalPolicy resp with
      | (_, Some err) => Returned ([], Some err)
      | (None, None) => Panicked
      | (Some p, None) =>
          match Match p (GetSubjects p) subject with
          | (_, Some err) => Returned ([], Some err)
          | (ok, None) =>
              if negb ok then FindPoliciesForSubject_loop subject items' ps
              else FindPoliciesForSubject_loop subject items' (ps ++ [p : Policy])
          end
      end
  end.

Definition FindPoliciesForSubject (m : RedisManager.t) (subject : string)
  (db : redis_state) : outcome (Policies * option error) :=
  let '(items, err) := HScan (RedisManager.redisPoliciesKey m) db in
  match FindPoliciesForSubject_loop subject items [] with
  | Returned res => Returns res
  | Panicked => Panics
  | Exhausted ps =>
      match err with
      | Some e => Returns ([], Some (errors_Wrap e ""))
      | None => Returns (ps, None)
      end
  end.

End Store.
End RedisStore.

(** ** Reference instances for the store *)

Module RefRedisHash.

(** The reply of a scan of a hash: every field followed by its value. *)
Definition flatten (pairs : list (string * string)) : list string :=
  flat_map (λ fv, [fv.1; fv.2]) pairs.

(** The in-memory store of [RefRedis] with the other hash commands: reading
    a field, removing a field (a hash left empty is removed with its key),
    and scanning a hash. An unreachable store answers with its error. *)
Definition HGet (key field : string) (db : RefRedis.store) : string * option error :=
  match RefRedis.outage db with
  | Some e => ("", Some e)
  | None =>
      match default ∅ (RefRedis.hashes db !! key) !! field with
      | Some value => (value, None)
      | None => ("", Some redis_Nil)
      end
  end.

Definition HDel (key field : string) (db : RefRedis.store)
  : option error * RefRedis.store :=
  match RefRedis.outage db with
  | Some e => (Some e, db)
  | None =>
      let h := delete field (default ∅ (RefRedis.hashes db !! key)) in
      (None,
       {| RefRedis.hashes :=
            if decide (h = ∅) then delete key (RefRedis.hashes db)
            else <[key := h]> (RefRedis.hashes db);
          RefRedis.outage := None |})
  end.

Definition HScan (key : string) (db : RefRedis.store) : list string * option error :=
  match RefRedis.outage db with
  | Some e => ([], Some e)
  | None => (flatten (map_to_list (default ∅ (RefRedis.hashes db !! key))), None)
  end.

Definition client : @RedisHashClient RefRedis.client :=
  @Build_RedisHashClient RefRedis.client HGet HDel HScan.

(** The payload the store holds for the manager [m] under the identifier
    [id], if any. *)
Definition stored (m : RedisManager.t) (db : RefRedis.store) (id : string)
  : option string :=
  default ∅ (RefRedis.hashes db !! RedisManager.redisPoliciesKey m) !! id.

(** A stand-in for [Wrap]: the message in front of the message of the
    cause. *)
Fixpoint message (e : error) : string :=
  match e with
  | ErrForbidden => "Forbidden"
  | ErrCompile msg => msg
  | ErrString msg => msg
  | errors_New e' => message e'
  end.

Definition Wrap (e : error) (msg : string) : error :=
  ErrString (msg +:+ ": " +:+ message e).

Definition pkg_errors : PkgErrors := Build_PkgErrors Wrap.

(** A stand-in for the JSON encoding of a policy without conditions: the
    identifier, the description, the effect and the three pattern lists,
    separated by bars, the patterns of a list by commas. The word [null]
    decodes to the nil pointer. *)
Fixpoint fields (sep : ascii) (s : list ascii) (cur : list ascii)
  : list string :=
  match s with
  | [] => [String.string_of_list_ascii (rev cur)]
  | c :: s' =>
      if Ascii.eqb c sep then String.string_of_list_ascii (rev cur) :: fields sep s' []
      else fields sep s' (c :: cur)
  end.

Definition split (sep : ascii) (s : string) : list string :=
  match s with
  | EmptyString => []
  | _ => fields sep (String.list_ascii_of_string s) []
  end.

Fixpoint join (sep : string) (l : list string) : string :=
  match l with
  | [] => ""
  | [s] => s
  | s :: l' => s +:+ sep +:+ join sep l'
  end.

Definition Marshal (p : Policy) : string * option error :=
  (join "|" [GetID p; GetDescription p; GetEffect p;
             join "," (GetSubjects p); join "," (GetResources p);
             join "," (GetActions p)], None).

Definition Unmarshal (payload : string) : option DefaultPolicy.t * option error :=
  if decide (payload = "null") then (None, None)
  else
    match fields "|" (String.list_ascii_of_string payload) [] with
    | [id; description; effect; subjects; resources; actions] =>
        (Some {| DefaultPolicy.ID := id;
                 DefaultPolicy.Description := description;
                 DefaultPolicy.Subjects := split "," subjects;
                 DefaultPolicy.Effect := effect;
                 DefaultPolicy.Resources := split "," resources;
                 DefaultPolicy.Actions := split "," actions;
                 DefaultPolicy.Conditions := ∅ |}, None)
    | _ => (None, Some (ErrString "json: cannot unmarshal"))
    end.

Definition encoder : JSONEncoder := Build_JSONEncoder Marshal.
Definition decoder : JSONDecoder := Build_JSONDecoder Unmarshal.

End RefRedisHash.

(** ** What a search of the Redis store returns *)

Section SearchSpec.
Context `{JSONDecoder} `{RegexCompiler}.

(** A policy of the result was decoded from a scanned value and one of its
    subject patterns matches. *)
Definition found_in (subject : string) (items : list string) (p : Policy) : Prop :=
  ∃ (q : DefaultPolicy.t) (resp : string),
    p = q ∧ resp ∈ items ∧ json_Unmarshal resp = (Some q, None) ∧
    scan_hits q (GetSubjects q) subject.

(** The policies of a decodable scan that the search keeps, the values of
    the scan decoding one by one to the policies [qs], whose subject
    patterns all compile. *)
Definition kept (subject : string) (qs : list DefaultPolicy.t) : Policies :=
  map DefaultPolicy.policy
    (List.filter (λ q : DefaultPolicy.t, any_matchesb q (GetSubjects q) subject) qs).

Definition decodes_to (pairs : list (string * string)) (qs : list DefaultPolicy.t)
  : Prop :=
  Forall2 (λ fv q, json_Unmarshal fv.2 = (Some q, None)) pairs qs.

Definition subjects_compile (qs : list DefaultPolicy.t) : Prop :=
  ∀ q : DefaultPolicy.t, q ∈ qs →
    ∀ h, h ∈ GetSubjects q → ∃ reg, compiles_to q h reg.

End SearchSpec.

(** ** The SQL policy store: the link tables *)

(** The open transaction that [createLinkSQL] writes to (collaborator), on
    an explicit state: [tx_Exec query args] and [tx_Rollback] answer with
    the error of [Tx.Exec] and [Tx.Rollback]. *)
Class SQLTx : Type := {
  tx_state : Type;
  tx_Exec : string → list string → tx_state → option error * tx_state;
  tx_Rollback : tx_state → option error * tx_state
}.

(** [DB.Rebind], [Regexp.String] and pkg/errors' [WithStack]
    (collaborators). A pattern that fails to compile leaves a nil
    [*Regexp], and [String] called on it panics. *)
Class SQLSupport `{RegexCompiler} : Type := {
  Rebind : string → string;
  Regexp_String : Regexp → string;
  errors_WithStack : error → error
}.

Module SQLManager.
Section Links.
Context `{SQLTx} `{SQLSupport}.

Definition insert_link (table : string) : string :=
  "INSERT INTO " +:+ table +:+ " (policy, template, compiled) VALUES (?, ?, ?)".

(** The error of [CompileRegex] is overwritten by the one of [Exec] before
    it is read; the compiled expression is used as it comes. *)
Fixpoint createLinkSQL (table : string) (p : Policy) (templates : list string)
  (tx : tx_state) : outcome (option error * tx_state) :=
  match templates with
  | [] => Returns (None, tx)
  | template :: templates' =>
      match CompileRegex template (GetStartDelimiter p) (GetEndDelimiter p) with
      | inr _ => Panics
      | inl reg =>
          let query := Rebind (insert_link table) in
          match tx_Exec query [GetID p; template; Regexp_String reg] tx with
          | (Some err, tx') =>
              match tx_Rollback tx' with
              | (Some rb, tx'') => Returns (Some (errors_WithStack rb), tx'')
              | (None, tx'') => Returns (Some (errors_WithStack err), tx'')
              end
          | (None, tx') => createLinkSQL table p templates' tx'
          end
      end
  end.

End Links.
End SQLManager.

(** A transaction that records the statements it is given and fails at the
    statement number [fail_at], if any; rolling back empties the record. *)
Module RefSQL.

Record log : Type := {
  executed : list (string * list string);
  fail_at : option nat
}.

Definition Exec (query : string) (args : list string) (tx : log)
  : option error * log :=
  if decide (fail_at tx = Some (length (executed tx)))
  then (Some (ErrString "sql: statement failed"), tx)
  else (None, {| executed := executed tx ++ [(query, args)];
                 fail_at := fail_at tx |}).

Definition Rollback (tx : log) : option error * log :=
  (None, {| executed := []; fail_at := fail_at tx |}).

Definition tx : SQLTx := Build_SQLTx log Exec Rollback.

(** The expression a compiled pattern of [RefCompiler] stands for. *)
Definition show_atom (a : RefCompiler.atom) : string :=
  match a with
  | RefCompiler.AnyChar => "."
  | RefCompiler.Char c => String c ""
  end.

Fixpoint show (reg : list RefCompiler.piece) : string :=
  match reg with
  | [] => "$"
  | RefCompiler.One a :: reg' => show_atom a +:+ show reg'
  | RefCompiler.Star a :: reg' => show_atom a +:+ "*" +:+ show reg'
  | RefCompiler.Plus a :: reg' => show_atom a +:+ "+" +:+ show reg'
  end.

Definition support : @SQLSupport RefCompiler.compiler :=
  @Build_SQLSupport RefCompiler.compiler
    (λ query, query) (λ reg, "^" +:+ show reg) (λ e, e).

End RefSQL.

(** ** Example stores *)

Module StoreExamples.

(** A manager, a store with the policies of peter and of paul, and stores
    with one entry and with none. *)
Definition manager : RedisManager.t := {| RedisManager.keyPrefix := "app:" |}.

Definition one_entry (id payload : string) : RefRedis.store :=
  {| RefRedis.hashes := {[ "app:ladon:policies" := {[ id := payload ]} ]};
     RefRedis.outage := None |}.


Definition two_entries : RefRedis.store :=
  {| RefRedis.hashes :=
       {[ "app:ladon:policies" :=
            {[ "2" := "2||allow|peter|<.*>|view"; "8" := "8||allow|paul|<.*>|view" ]} ]};
     RefRedis.outage := None |}.

End StoreExamples.

(** * Results *)

(** ** The scan of [Match] *)

Section MatchFacts.
Context `{RegexCompiler}.

Lemma none_matches_nil p s : none_matches p [] s.
Proof. intros h Hh. by apply elem_of_nil in Hh. Qed.

Lemma none_matches_cons p h L s :
  none_matches p (h :: L) s ↔ pattern_rejects p h s ∧ none_matches p L s.
Proof.
  unfold none_matches. split.
  - intros HL. split; [apply HL; left|intros h' Hh'; apply HL; by right].
  - intros [Hh HL] h' [->|Hin]%elem_of_cons; auto.
Qed.

Lemma rejects_not_matches p h s : pattern_rejects p h s → ¬ pattern_matches p h s.
Proof.
  intros (reg & Hc & Hm) (reg' & Hc' & Hm'). unfold compiles_to in *.
  rewrite Hc in Hc'. injection Hc' as <-. congruence.
Qed.

Lemma none_matches_not_any p L s : none_matches p L s → ¬ any_matches p L s.
Proof. intros HL (h & Hin & Hm). exact (rejects_not_matches _ _ _ (HL h Hin) Hm). Qed.

Lemma scan_hits_any p L s : scan_hits p L s → any_matches p L s.
Proof.
  intros (pre & h & post & -> & _ & Hm). exists h. split; [|done].
  apply elem_of_app. right. left.
Qed.

Lemma scan_fails_elem p L s msg :
  scan_fails p L s msg → ∃ h, h ∈ L ∧ pattern_fails p h msg.
Proof.
  intros (pre & h & post & -> & _ & Hf). exists h. split; [|done].
  apply elem_of_app. right. left.
Qed.

(** One step of the scan. *)
Lemma Match_rejects p h L s :
  pattern_rejects p h s → Match p (h :: L) s = Match p L s.
Proof. intros (reg & Hc & Hm). simpl. unfold compiles_to in Hc. by rewrite Hc, Hm. Qed.

Lemma Match_skip_prefix p pre L s :
  none_matches p pre s → Match p (pre ++ L) s = Match p L s.
Proof.
  induction pre as [|h pre IH]; [done|].
  intros [Hh Hpre]%none_matches_cons.
  rewrite <- app_comm_cons, Match_rejects by done. auto.
Qed.

Lemma Match_hit p L s : scan_hits p L s → Match p L s = (true, None).
Proof.
  intros (pre & h & post & -> & Hpre & reg & Hc & Hm).
  rewrite Match_skip_prefix by done. simpl.
  unfold compiles_to in Hc. by rewrite Hc, Hm.
Qed.

Lemma Match_fail p L s msg :
  scan_fails p L s msg → Match p L s = (false, Some (ErrCompile msg)).
Proof.
  intros (pre & h & post & -> & Hpre & Hf).
  rewrite Match_skip_prefix by done. simpl.
  unfold pattern_fails in Hf. by rewrite Hf.
Qed.

Lemma Match_none p L s : none_matches p L s → Match p L s = (false, None).
Proof.
  intros HL. rewrite <- (app_nil_r L). by rewrite Match_skip_prefix.
Qed.

(** The three ways a scan ends. *)
Lemma Match_cases p L s :
  (scan_hits p L s ∧ Match p L s = (true, None)) ∨
  (none_matches p L s ∧ Match p L s = (false, None)) ∨
  (∃ msg, scan_fails p L s msg ∧ Match p L s = (false, Some (ErrCompile msg))).
Proof.
  induction L as [|h L IH].
  - right; left. split; [apply none_matches_nil|done].
  - destruct (CompileRegex h (GetStartDelimiter p) (GetEndDelimiter p))
      as [reg|msg] eqn:Hc.
    + destruct (MatchString reg s) eqn:Hm.
      * assert (Hhit : scan_hits p (h :: L) s).
        { exists [], h, L. split; [done|]. split; [apply none_matches_nil|].
          by exists reg. }
        left. split; [done|by apply Match_hit].
      * assert (Hrej : pattern_rejects p h s) by (by exists reg).
        rewrite (Match_rejects _ _ _ _ Hrej).
        destruct IH as [[Hhit HM]|[[Hnone HM]|(msg & Hf & HM)]].
        -- left. split; [|done].
           destruct Hhit as (pre & h' & post & -> & Hpre & Hm').
           exists (h :: pre), h', post. split; [done|].
           split; [by apply none_matches_cons|done].
        -- right; left. split; [by apply none_matches_cons|done].
        -- right; right. exists msg. split; [|done].
           destruct Hf as (pre & h' & post & -> & Hpre & Hf').
           exists (h :: pre), h', post. split; [done|].
           split; [by apply none_matches_cons|done].
    + assert (Hf : scan_fails p (h :: L) s msg).
      { exists [], h, L. split; [done|]. split; [apply none_matches_nil|done]. }
      right; right. exists msg. split; [done|by apply Match_fail].
Qed.

End MatchFacts.

(** ** Conditions *)

Lemma passesConditions_range_Forall cs r :
  passesConditions_range cs r = true ↔
  Forall (λ kc, Fulfills kc.2 r = true) cs.
Proof.
  induction cs as [|[k c] cs IH]; simpl.
  - split; [constructor|done].
  - destruct (Fulfills c r) eqn:Hc; simpl.
    + rewrite IH. split; [by constructor|by inversion 1].
    + split; [done|]. inversion 1; simpl in *; congruence.
Qed.

Lemma conditions_hold_Forall p r :
  conditions_hold p r ↔
  Forall (λ kc, Fulfills kc.2 r = true) (map_to_list (GetConditions p)).
Proof.
  unfold conditions_hold. rewrite map_Forall_to_list.
  apply Forall_proper; [|done]. by intros [k c].
Qed.

Lemma passesConditions_hold p r :
  passesConditions p r = true ↔ conditions_hold p r.
Proof.
  unfold passesConditions.
  by rewrite passesConditions_range_Forall, conditions_hold_Forall.
Qed.

Lemma legacy_passesConditions_range cs r :
  LadonLegacy.passesConditions_range cs r = passesConditions_range cs r.
Proof. induction cs as [|[k c] cs IH]; simpl; [done|]. by rewrite IH. Qed.

Lemma legacy_passesConditions_hold p r :
  LadonLegacy.passesConditions p r = true ↔ conditions_hold p r.
Proof.
  unfold LadonLegacy.passesConditions.
  rewrite legacy_passesConditions_range. apply passesConditions_hold.
Qed.

(** ** One pass of the loop body *)

Section BodyFacts.
Context `{RegexCompiler}.

Lemma scan_fails_failure p L s msg e :
  scan_fails p L s msg → L ⊆ patterns p →
  e = ErrCompile msg ∨ e = errors_New (ErrCompile msg) →
  compile_failure [p] e.
Proof.
  intros (h & Hin & Hf)%scan_fails_elem Hsub He.
  exists p, h, msg. split; [by left|]. split; [by apply Hsub|done].
Qed.

Lemma actions_patterns p : GetActions p ⊆ patterns p.
Proof. intros h Hh. unfold patterns. apply elem_of_app. by left. Qed.

Lemma subjects_patterns p : GetSubjects p ⊆ patterns p.
Proof.
  intros h Hh. unfold patterns. apply elem_of_app. right.
  apply elem_of_app. by left.
Qed.

Lemma resources_patterns p : GetResources p ⊆ patterns p.
Proof.
  intros h Hh. unfold patterns. apply elem_of_app. right.
  apply elem_of_app. by right.
Qed.

Lemma empty_list_length {A} (l : list A) : length l = 0 ↔ l = [].
Proof. destruct l; simpl; split; (done || lia). Qed.

Lemma not_any_matches_nil p s : ¬ any_matches p [] s.
Proof. intros (h & Hin & _). by apply elem_of_nil in Hin. Qed.

Lemma body_classified r p :
  body_outcome (matches p r) p (Ladon.doPoliciesAllow_body r p).
Proof.
  unfold Ladon.doPoliciesAllow_body, matches.
  destruct (Match_cases p (GetActions p) (Action r))
    as [[Ha ->]|[[Ha ->]|(msg & Ha & ->)]]; simpl.
  2: { apply outcome_skip. intros [Hm _]. by apply (none_matches_not_any _ _ _ Ha). }
  2: { apply outcome_error. eapply scan_fails_failure; eauto using actions_patterns. }
  apply scan_hits_any in Ha.
  assert (Htail : ∀ subj res : Prop, subj → res →
    body_outcome (any_matches p (GetActions p) (Action r) ∧ subj ∧ res ∧
                  conditions_hold p r) p
      (if negb (passesConditions p r) then Continue
       else if negb (AllowAccess p) then Return (errors_New ErrForbidden)
            else SetAllowed)).
  { intros subj res Hs Hr.
    destruct (passesConditions p r) eqn:Hc; simpl.
    - apply passesConditions_hold in Hc.
      destruct (AllowAccess p) eqn:He; simpl;
        [apply outcome_allow|apply outcome_deny]; done.
    - apply outcome_skip. intros (_ & _ & _ & Hc').
      apply passesConditions_hold in Hc'. congruence. }
  destruct (Match_cases p (GetSubjects p) (Subject r))
    as [[Hs ->]|[[Hs ->]|(msg & Hs & ->)]]; simpl.
  3: { apply outcome_error. eapply scan_fails_failure; eauto using subjects_patterns. }
  - apply scan_hits_any in Hs.
    case_bool_decide as Hres; simpl.
    + case_bool_decide as Hlen; simpl.
      * apply Htail; [by right|left]. split; [done|by apply empty_list_length].
      * destruct (Match_cases p (GetResources p) (Resource r))
          as [[Hr ->]|[[Hr ->]|(msg & Hr & ->)]]; simpl.
        -- apply Htail; [by right|right; by apply scan_hits_any].
        -- apply outcome_skip. intros (_ & _ & [[_ Hnil]|Hany] & _).
           ++ apply Hlen. by rewrite Hnil.
           ++ by apply (none_matches_not_any _ _ _ Hr).
        -- apply outcome_error.
           eapply scan_fails_failure; eauto using resources_patterns.
    + destruct (Match_cases p (GetResources p) (Resource r))
        as [[Hr ->]|[[Hr ->]|(msg & Hr & ->)]]; simpl.
      * apply Htail; [by right|right; by apply scan_hits_any].
      * apply outcome_skip. intros (_ & _ & [[Hnil _]|Hany] & _); [done|].
        by apply (none_matches_not_any _ _ _ Hr).
      * apply outcome_error.
        eapply scan_fails_failure; eauto using resources_patterns.
  - case_bool_decide as Hsl; simpl.
    + apply outcome_skip. intros (_ & [Hnil|Hany] & _).
      * rewrite Hnil in Hsl. simpl in Hsl. lia.
      * by apply (none_matches_not_any _ _ _ Hs).
    + assert (Hnil : GetSubjects p = []).
      { apply empty_list_length. lia. }
      case_bool_decide as Hres; simpl.
      * case_bool_decide as Hlen; simpl.
        -- apply Htail; [by left|left]. split; [done|by apply empty_list_length].
        -- destruct (Match_cases p (GetResources p) (Resource r))
             as [[Hr ->]|[[Hr ->]|(msg & Hr & ->)]]; simpl.
           ++ apply Htail; [by left|right; by apply scan_hits_any].
           ++ apply outcome_skip. intros (_ & _ & [[_ Hn]|Hany] & _).
              ** apply Hlen. by rewrite Hn.
              ** by apply (none_matches_not_any _ _ _ Hr).
           ++ apply outcome_error.
              eapply scan_fails_failure; eauto using resources_patterns.
      * destruct (Match_cases p (GetResources p) (Resource r))
          as [[Hr ->]|[[Hr ->]|(msg & Hr & ->)]]; simpl.
        -- apply Htail; [by left|right; by apply scan_hits_any].
        -- apply outcome_skip. intros (_ & _ & [[Hn _]|Hany] & _); [done|].
           by apply (none_matches_not_any _ _ _ Hr).
        -- apply outcome_error.
           eapply scan_fails_failure; eauto using resources_patterns.
Qed.

End BodyFacts.

Section LegacyBodyFacts.
Context `{RegexCompiler}.

Lemma legacy_body_classified r p :
  body_outcome (legacy_matches p r) p (LadonLegacy.doPoliciesAllow_body r p).
Proof.
  unfold LadonLegacy.doPoliciesAllow_body, legacy_matches.
  destruct (Match_cases p (GetResources p) (Resource r))
    as [[Hr ->]|[[Hr ->]|(msg & Hr & ->)]]; simpl.
  2: { apply outcome_skip. intros (_ & _ & Hm & _).
       by apply (none_matches_not_any _ _ _ Hr). }
  2: { apply outcome_error.
       eapply scan_fails_failure; eauto using resources_patterns. }
  apply scan_hits_any in Hr.
  destruct (Match_cases p (GetActions p) (Action r))
    as [[Ha ->]|[[Ha ->]|(msg & Ha & ->)]]; simpl.
  2: { apply outcome_skip. intros [Hm _].
       by apply (none_matches_not_any _ _ _ Ha). }
  2: { apply outcome_error.
       eapply scan_fails_failure; eauto using actions_patterns. }
  apply scan_hits_any in Ha.
  assert (Htail : (GetSubjects p = [] ∨ any_matches p (GetSubjects p) (Subject r)) →
    body_outcome (any_matches p (GetActions p) (Action r) ∧
                  (GetSubjects p = [] ∨ any_matches p (GetSubjects p) (Subject r)) ∧
                  any_matches p (GetResources p) (Resource r) ∧
                  conditions_hold p r) p
      (if negb (LadonLegacy.passesConditions p r) then Continue
       else if negb (LadonLegacy.HasAccess p)
            then Return (errors_New ErrForbidden)
            else SetAllowed)).
  { intros Hs. unfold LadonLegacy.HasAccess.
    destruct (LadonLegacy.passesConditions p r) eqn:Hc; simpl.
    - apply legacy_passesConditions_hold in Hc.
      destruct (AllowAccess p) eqn:He; simpl;
        [apply outcome_allow|apply outcome_deny]; done.
    - apply outcome_skip. intros (_ & _ & _ & Hc').
      apply legacy_passesConditions_hold in Hc'. congruence. }
  destruct (Match_cases p (GetSubjects p) (Subject r))
    as [[Hs ->]|[[Hs ->]|(msg & Hs & ->)]]; simpl.
  - apply Htail. right. by apply scan_hits_any.
  - case_bool_decide as Hsl; simpl.
    + apply outcome_skip. intros (_ & [Hnil|Hany] & _).
      * rewrite Hnil in Hsl. simpl in Hsl. lia.
      * by apply (none_matches_not_any _ _ _ Hs).
    + apply Htail. left. apply empty_list_length. lia.
  - apply outcome_error.
    eapply scan_fails_failure; eauto using subjects_patterns.
Qed.

End LegacyBodyFacts.

(** ** The loop *)

Section LoopFacts.
Context `{RegexCompiler}.
Variable matching : Policy → Prop.

Lemma compile_failure_here p P e :
  compile_failure [p] e → compile_failure (p :: P) e.
Proof.
  intros (q & h & msg & Hq%list_elem_of_singleton & Hrest). subst q.
  exists p, h, msg. split; [by left|done].
Qed.

Lemma compile_failure_later p P e :
  compile_failure P e → compile_failure (p :: P) e.
Proof.
  intros (q & h & msg & Hin & Hrest).
  exists q, h, msg. split; [by right|done].
Qed.

Lemma classified_nil allowed :
  verdict_classified matching [] allowed
    (if negb allowed then Some (errors_New ErrForbidden) else None).
Proof.
  right; right. split; [by intros p Hp%elem_of_nil|].
  destruct allowed; simpl.
  - left. split; [by left|done].
  - right. split; [done|]. split; [by intros p Hp%elem_of_nil|done].
Qed.

Lemma classified_error p P allowed e :
  compile_failure [p] e → verdict_classified matching (p :: P) allowed (Some e).
Proof. intros He. left. exists e. split; [by apply compile_failure_here|done]. Qed.

Lemma classified_deny p P allowed :
  matching p → AllowAccess p = false →
  verdict_classified matching (p :: P) allowed (Some (errors_New ErrForbidden)).
Proof. intros Hm Hd. right; left. split; [|done]. exists p. split; [by left|done]. Qed.

Lemma classified_skip p P allowed res :
  ¬ matching p → verdict_classified matching P allowed res →
  verdict_classified matching (p :: P) allowed res.
Proof.
  intros Hn [(e & He & ->)|[[(q & Hq & Hmq & Hd) ->]|[Hall Hres]]].
  - left. exists e. split; [by apply compile_failure_later|done].
  - right; left. split; [|done]. exists q. split; [by right|done].
  - right; right. split.
    + intros q [->|Hq]%elem_of_cons Hmq; [done|by apply Hall].
    + destruct Hres as [[Hsome ->]|(Ha & Hnone & ->)].
      * left. split; [|done]. destruct Hsome as [Ht|(q & Hq & Hmq)]; [by left|].
        right. exists q. split; [by right|done].
      * right. split; [done|]. split; [|done].
        intros q [->|Hq]%elem_of_cons; [done|by apply Hnone].
Qed.

Lemma classified_allow p P allowed res :
  matching p → AllowAccess p = true → verdict_classified matching P true res →
  verdict_classified matching (p :: P) allowed res.
Proof.
  intros Hm Ha [(e & He & ->)|[[(q & Hq & Hmq & Hd) ->]|[Hall Hres]]].
  - left. exists e. split; [by apply compile_failure_later|done].
  - right; left. split; [|done]. exists q. split; [by right|done].
  - right; right. split.
    + intros q [->|Hq]%elem_of_cons Hmq; [done|by apply Hall].
    + destruct Hres as [[_ ->]|(Hf & _)]; [|done].
      left. split; [|done]. right. exists p. split; [by left|done].
Qed.

End LoopFacts.

Section VerdictFacts.
Context `{RegexCompiler}.

Lemma loop_classified r P allowed :
  verdict_classified (λ p, matches p r) P allowed
    (Ladon.doPoliciesAllow_loop r P allowed).
Proof.
  revert allowed. induction P as [|p P IH]; intros allowed; simpl.
  - apply classified_nil.
  - destruct (body_classified r p) as [Hn|Hm Ha|Hm Hd|e He].
    + by apply classified_skip.
    + by apply classified_allow.
    + by apply classified_deny.
    + by apply classified_error.
Qed.

Lemma legacy_loop_classified r P allowed :
  verdict_classified (λ p, legacy_matches p r) P allowed
    (LadonLegacy.doPoliciesAllow_loop r P allowed).
Proof.
  revert allowed. induction P as [|p P IH]; intros allowed; simpl.
  - apply classified_nil.
  - destruct (legacy_body_classified r p) as [Hn|Hm Ha|Hm Hd|e He].
    + by apply classified_skip.
    + by apply classified_allow.
    + by apply classified_deny.
    + by apply classified_error.
Qed.


Lemma well_formed_no_failure P e :
  (∀ p, p ∈ P → well_formed p) → ¬ compile_failure P e.
Proof.
  intros Hwf (p & h & msg & Hin & Hh & Hf & _).
  destruct (Hwf p Hin h Hh) as [reg Hc].
  unfold compiles_to, pattern_fails in *. congruence.
Qed.

End VerdictFacts.

Section Verdicts.
Context `{RegexCompiler}.




Lemma well_formedb_sound p : well_formedb p = true → well_formed p.
Proof.
  unfold well_formedb, well_formed. rewrite forallb_forall.
  intros Hall h Hh%list_elem_of_In. specialize (Hall h Hh).
  unfold compiles_to.
  destruct (CompileRegex h (GetStartDelimiter p) (GetEndDelimiter p)); [eauto|done].
Qed.




End Verdicts.

(** ** The checks of one policy *)

Section Checks.
Context `{RegexCompiler}.

Lemma scan_hits_nonempty p L s : scan_hits p L s → L ≠ [].
Proof. intros (pre & h & post & -> & _). by destruct pre. Qed.

Lemma forbidden_not_failure P : ¬ compile_failure P (errors_New ErrForbidden).
Proof. intros (p & h & msg & _ & _ & _ & [He|He]); congruence. Qed.

Lemma applies_matches v r p : applies_of v r p → matches_of v p r.
Proof.
  destruct v; simpl; unfold applies, legacy_applies; intros Happ.
  - pose proof (body_classified r p) as Hout. rewrite Happ in Hout.
    destruct (AllowAccess p); inversion Hout; subst; try done.
    by destruct (forbidden_not_failure [p]).
  - pose proof (legacy_body_classified r p) as Hout. rewrite Happ in Hout.
    destruct (AllowAccess p); inversion Hout; subst; try done.
    by destruct (forbidden_not_failure [p]).
Qed.

Lemma subject_check_passes p s :
  scan_hits p (GetSubjects p) s ∨ GetSubjects p = [] →
  ∃ sm, Match p (GetSubjects p) s = (sm, None) ∧
        negb sm && bool_decide (0 < length (GetSubjects p)) = false.
Proof.
  intros [Hs| ->].
  - exists true. by rewrite (Match_hit _ _ _ Hs).
  - by exists false.
Qed.

Lemma passes_all_checks v r p :
  scan_hits p (GetActions p) (Action r) →
  scan_hits p (GetSubjects p) (Subject r) ∨ GetSubjects p = [] →
  resource_passes v p r →
  conditions_hold p r →
  applies_of v r p.
Proof.
  intros Ha Hs Hr Hc.
  destruct (subject_check_passes p (Subject r) Hs) as (sm & HMs & Hsm).
  destruct v; simpl in *.
  - apply passesConditions_hold in Hc.
    unfold applies, Ladon.doPoliciesAllow_body.
    rewrite (Match_hit _ _ _ Ha); simpl. rewrite HMs, Hsm, Hc; simpl.
    destruct Hr as [[Hres Hnil]|Hr].
    + rewrite !bool_decide_eq_true_2 by (by rewrite ?Hnil). simpl.
      by destruct (AllowAccess p).
    + rewrite (Match_hit _ _ _ Hr); simpl.
      rewrite (bool_decide_eq_false_2 (length (GetResources p) = 0)).
      * rewrite andb_false_r. by destruct (AllowAccess p).
      * intros Hlen%empty_list_length. by apply scan_hits_nonempty in Hr.
  - apply legacy_passesConditions_hold in Hc.
    unfold legacy_applies, LadonLegacy.doPoliciesAllow_body, LadonLegacy.HasAccess.
    rewrite (Match_hit _ _ _ Hr); simpl. rewrite (Match_hit _ _ _ Ha); simpl.
    rewrite HMs, Hsm, Hc; simpl. by destruct (AllowAccess p).
Qed.



Lemma loop_without_skipped r p P1 P2 allowed :
  Ladon.doPoliciesAllow_body r p = Continue →
  Ladon.doPoliciesAllow_loop r (P1 ++ p :: P2) allowed =
  Ladon.doPoliciesAllow_loop r (P1 ++ P2) allowed.
Proof.
  intros Hp. revert allowed. induction P1 as [|q P1 IH]; intros allowed; simpl.
  - by rewrite Hp.
  - destruct (Ladon.doPoliciesAllow_body r q); auto.
Qed.

Lemma legacy_loop_without_skipped r p P1 P2 allowed :
  LadonLegacy.doPoliciesAllow_body r p = Continue →
  LadonLegacy.doPoliciesAllow_loop r (P1 ++ p :: P2) allowed =
  LadonLegacy.doPoliciesAllow_loop r (P1 ++ P2) allowed.
Proof.
  intros Hp. revert allowed. induction P1 as [|q P1 IH]; intros allowed; simpl.
  - by rewrite Hp.
  - destruct (LadonLegacy.doPoliciesAllow_body r q); auto.
Qed.


(** C5. The subject check, in both revisions: a policy that declares
    subject patterns passes the checks only if one of them matches the
    subject of the request; a policy that declares none passes the subject
    check for every subject, so it applies as soon as its action, resource
    and condition checks pass. *)
Theorem subject_rule (v : revision) (r : Request) (p : Policy) :
  (GetSubjects p ≠ [] → applies_of v r p →
   any_matches p (GetSubjects p) (Subject r)) ∧
  (GetSubjects p = [] →
   scan_hits p (GetActions p) (Action r) →
   resource_passes v p r →
   conditions_hold p r →
   applies_of v r p).
Proof.
  split.
  - intros Hne Happ.
    assert (Hs : GetSubjects p = [] ∨ any_matches p (GetSubjects p) (Subject r)).
    { destruct v; by destruct (applies_matches _ r p Happ) as (_ & Hs & _). }
    by destruct Hs.
  - intros Hnil Ha Hr Hc. apply passes_all_checks; try done. by right.
Qed.


End Checks.

(** ** The scan, the conditions, the empty lists *)

Section Scan.
Context `{RegexCompiler}.

(** C7. [Match] stops at the first pattern that ends the scan: when the
    patterns before [h] compile and do not match, a matching [h] makes the
    result true and a failing [h] makes it the compile error of [h],
    whatever patterns [post] follow, malformed ones included. *)
Theorem Match_stops_at_first (p : Policy) (pre : list string) (h : string)
    (post : list string) (s : string) :
  none_matches p pre s →
  (pattern_matches p h s → Match p (pre ++ h :: post) s = (true, None)) ∧
  (∀ msg, pattern_fails p h msg →
          Match p (pre ++ h :: post) s = (false, Some (ErrCompile msg))).
Proof.
  intros Hpre. split.
  - intros Hm. apply Match_hit. by exists pre, h, post.
  - intros msg Hf. apply Match_fail. by exists pre, h, post.
Qed.

(** C9. On an empty pattern list [Match] answers false without an error.
    So a policy without action patterns is skipped by the current revision
    and the decision is the same without it, in the earlier revision it
    never contributes its effect, and there a policy without resource
    patterns is skipped and the decision is the same without it. *)
Theorem empty_pattern_list :
  (∀ p s, Match p [] s = (false, None)) ∧
  (∀ r p, GetActions p = [] →
     Ladon.doPoliciesAllow_body r p = Continue ∧
     ¬ legacy_applies r p ∧
     ∀ P1 P2, Ladon.doPoliciesAllow r (P1 ++ p :: P2) =
              Ladon.doPoliciesAllow r (P1 ++ P2)) ∧
  (∀ r p, GetResources p = [] →
     LadonLegacy.doPoliciesAllow_body r p = Continue ∧
     ∀ P1 P2, LadonLegacy.doPoliciesAllow r (P1 ++ p :: P2) =
              LadonLegacy.doPoliciesAllow r (P1 ++ P2)).
Proof.
  split; [done|]. split.
  - intros r p Hnil.
    assert (Hskip : Ladon.doPoliciesAllow_body r p = Continue).
    { unfold Ladon.doPoliciesAllow_body. by rewrite Hnil. }
    split; [done|]. split.
    + intros Happ. apply (applies_matches Earlier) in Happ as [Ha _].
      rewrite Hnil in Ha. by apply not_any_matches_nil in Ha.
    + intros P1 P2. by apply loop_without_skipped.
  - intros r p Hnil.
    assert (Hskip : LadonLegacy.doPoliciesAllow_body r p = Continue).
    { unfold LadonLegacy.doPoliciesAllow_body. by rewrite Hnil. }
    split; [done|]. intros P1 P2. by apply legacy_loop_without_skipped.
Qed.

End Scan.

(** C8. The condition check is the conjunction of the conditions: it
    passes exactly when every condition attached to the policy returns true
    on the request, in whatever order the entries of the map are visited,
    and it passes when no condition is attached. The check and every
    condition return a [bool]: there is no error to return. *)
Theorem conditions_are_conjunction (p : Policy) (r : Request) :
  (passesConditions p r = true ↔
   ∀ name c, GetConditions p !! name = Some c → Fulfills c r = true) ∧
  (∀ cs, range_order (GetConditions p) cs →
         passesConditions_range cs r = passesConditions p r) ∧
  (GetConditions p = ∅ → passesConditions p r = true).
Proof.
  split; [apply passesConditions_hold|]. split.
  - intros cs Hcs. unfold passesConditions, range_order in *.
    apply eq_true_iff_eq. rewrite !passesConditions_range_Forall.
    by rewrite Hcs.
  - intros Hempty. apply passesConditions_hold. unfold conditions_hold.
    rewrite Hempty. apply map_Forall_empty.
Qed.

(** ** Creation in the Redis store *)

(** C10. When the set-if-not-exists command reports that the field was not
    set, [Create] returns the error that the policy exists, whatever error
    the command reported with it: the flag is read before the error. *)
Theorem Create_reports_exists `{RedisClient} `{JSONEncoder}
    (m : RedisManager.t) (policy : Policy) (db db' : redis_state)
    (payload : string) (err : option error) :
  json_Marshal policy = (payload, None) →
  HSetNX (RedisManager.redisPoliciesKey m) (GetID policy) payload db
    = ((false, err), db') →
  RedisManager.Create m policy db = (Some (ErrString "Policy exists"), db').
Proof.
  intros Hjson Hset. unfold RedisManager.Create. by rewrite Hjson, Hset.
Qed.

(** ** Running the checks on concrete policies *)

Section Running.
Context `{RegexCompiler}.




Lemma scan_hits_head p h L s reg :
  CompileRegex h (GetStartDelimiter p) (GetEndDelimiter p) = inl reg →
  MatchString reg s = true →
  scan_hits p (h :: L) s.
Proof.
  intros Hc Hm. exists [], h, L. split; [done|].
  split; [apply none_matches_nil|by exists reg].
Qed.

End Running.

(** ** The results on concrete policies *)

Section Concrete.
Local Existing Instance RefCompiler.compiler.
Local Existing Instance RefRedis.client.
Local Existing Instance RefRedis.encoder.

Import Examples.








Lemma subject_rule_witness :
  let p : Policy := policy "5" [] ["view"] ["<.*>"] "allow" in
  let r := request "anyone" "view" "a" in
  (GetSubjects p = [] ∧
   scan_hits p (GetActions p) (Action r) ∧
   resource_passes Current p r ∧
   conditions_hold p r) ∧
  applies_of Current r p.
Proof.
  intros p r.
  assert (Hnil : GetSubjects p = []) by reflexivity.
  assert (Ha : scan_hits p (GetActions p) (Action r)).
  { eapply scan_hits_head; reflexivity. }
  assert (Hr : resource_passes Current p r).
  { right. eapply scan_hits_head; reflexivity. }
  assert (Hc : conditions_hold p r) by apply map_Forall_empty.
  split; [done|].
  exact (proj2 (subject_rule Current r p) Hnil Ha Hr Hc).
Defined.


Lemma Match_stops_at_first_witness :
  let p : Policy := peter_view in
  (none_matches p ["view"] "delete" ∧
   pattern_fails p "<" "Unbalanced braces in <") ∧
  Match p (["view"] ++ "<" :: ["<.*>"]) "delete"
    = (false, Some (ErrCompile "Unbalanced braces in <")).
Proof.
  intros p.
  assert (Hpre : none_matches p ["view"] "delete").
  { apply none_matches_cons. split; [|apply none_matches_nil].
    eexists. split; reflexivity. }
  assert (Hf : pattern_fails p "<" "Unbalanced braces in <") by reflexivity.
  split; [done|].
  exact (proj2 (Match_stops_at_first p ["view"] "<" ["<.*>"] "delete" Hpre) _ Hf).
Defined.

Lemma empty_pattern_list_witness :
  let p : Policy := policy "6" ["peter"] [] ["<.*>"] "allow" in
  let r := request "peter" "view" "a" in
  GetActions p = [] ∧
  Ladon.doPoliciesAllow r ([peter_deny] ++ p :: [peter_view]) =
  Ladon.doPoliciesAllow r ([peter_deny] ++ [peter_view]).
Proof.
  intros p r.
  assert (Hnil : GetActions p = []) by reflexivity.
  split; [done|].
  exact (proj2 (proj2 (proj1 (proj2 empty_pattern_list) r p Hnil))
           [peter_deny] [peter_view]).
Defined.

Lemma conditions_are_conjunction_witness :
  GetConditions peter_all = ∅ ∧
  passesConditions peter_all (request "peter" "delete" "") = true.
Proof.
  assert (Hempty : GetConditions peter_all = ∅) by reflexivity.
  split; [done|].
  exact (proj2 (proj2 (conditions_are_conjunction peter_all
                         (request "peter" "delete" ""))) Hempty).
Defined.

Lemma Create_reports_exists_witness :
  let m := {| RedisManager.keyPrefix := "app:" |} in
  let down := ErrString "connection refused" in
  let db := {| RefRedis.hashes := ∅; RefRedis.outage := Some down |} in
  let payload := "{id:1,effect:allow}" in
  (json_Marshal peter_all = (payload, None) ∧
   HSetNX (RedisManager.redisPoliciesKey m) (GetID peter_all) payload db
     = ((false, Some down), db)) ∧
  RedisManager.Create m peter_all db = (Some (ErrString "Policy exists"), db).
Proof.
  intros m down db payload.
  assert (Hjson : json_Marshal peter_all = (payload, None)) by reflexivity.
  assert (Hset : HSetNX (RedisManager.redisPoliciesKey m) (GetID peter_all)
                   payload db = ((false, Some down), db)) by reflexivity.
  split; [done|].
  exact (Create_reports_exists m peter_all db db payload (Some down) Hjson Hset).
Defined.

(** The scenarios of the specification on the current revision: peter's
    policy without resources denies a request that names a resource, and a
    denying policy on every action overrides the allowing one on [view]. *)
Example scenario_resource_named :
  Ladon.IsAllowed (fixed_store [peter_all]) (request "peter" "delete" "articles/1")
  = Some (errors_New ErrForbidden).
Proof. reflexivity. Qed.

Example scenario_deny_overrides :
  Ladon.IsAllowed (fixed_store [peter_view; peter_deny]) (request "peter" "view" "a")
  = Some (errors_New ErrForbidden).
Proof. reflexivity. Qed.

(** The earlier revision has no case for the empty resource: it denies
    peter's request without a resource on the policy without resources. *)
Example legacy_scenario_no_resource :
  LadonLegacy.IsAllowed (fixed_store [peter_all]) (request "peter" "delete" "")
  = Some (errors_New ErrForbidden).
Proof. reflexivity. Qed.

(** In a store that answers, [Create] writes a new field once: the second
    creation of the same policy reports that it exists. *)
Example Create_twice :
  let m := {| RedisManager.keyPrefix := "" |} in
  let db0 := {| RefRedis.hashes := ∅; RefRedis.outage := None |} in
  let '(first, db1) := RedisManager.Create m peter_all db0 in
  let '(second, _) := RedisManager.Create m peter_all db1 in
  first = None ∧ second = Some (ErrString "Policy exists").
Proof. vm_compute. done. Qed.

End Concrete.

(** * Further results *)

(** ** The decision as a function of the policy set *)

Section Decisions.
Context `{RegexCompiler}.

Lemma loop_of_nil v r allowed :
  loop_of v r [] allowed =
  if negb allowed then Some (errors_New ErrForbidden) else None.
Proof. by destruct v. Qed.

Lemma loop_of_cons v r p P allowed :
  loop_of v r (p :: P) allowed =
  match body_of v r p with
  | Continue => loop_of v r P allowed
  | Return err => Some err
  | SetAllowed => loop_of v r P true
  end.
Proof. by destruct v. Qed.

Lemma doPoliciesAllow_of_loop v r P :
  doPoliciesAllow_of v r P = loop_of v r P false.
Proof. by destruct v. Qed.

Lemma body_of_classified v r p :
  body_outcome (matches_of v p r) p (body_of v r p).
Proof. destruct v; [apply body_classified|apply legacy_body_classified]. Qed.

Lemma doPoliciesAllow_of_classified v r P :
  verdict_classified (λ p, matches_of v p r) P false (doPoliciesAllow_of v r P).
Proof. destruct v; [apply loop_classified|apply legacy_loop_classified]. Qed.

Lemma IsAllowed_of_unfold v g r :
  IsAllowed_of v g r =
  match FindPoliciesForSubject g (Subject r) with
  | (_, Some err) => Some (errors_New err)
  | (policies, None) => doPoliciesAllow_of v r policies
  end.
Proof. by destruct v. Qed.

(** X1. No grant without a reason: when [IsAllowed] returns nil, the store
    answered without an error, an allowing policy of its answer matches the
    request, and every policy of the answer that matches allows. *)
Theorem allowed_only_if_granted (v : revision) (g : Manager) (r : Request) :
  IsAllowed_of v g r = None →
  ∃ P, FindPoliciesForSubject g (Subject r) = (P, None) ∧
       (∃ p, p ∈ P ∧ matches_of v p r ∧ AllowAccess p = true) ∧
       (∀ p, p ∈ P → matches_of v p r → AllowAccess p = true).
Proof.
  rewrite IsAllowed_of_unfold.
  destruct (FindPoliciesForSubject g (Subject r)) as [P [e|]]; [done|].
  intros Hres. exists P. split; [done|].
  destruct (doPoliciesAllow_of_classified v r P)
    as [(e & _ & He)|[[_ He]|[Hall [[[Ht|(p & Hp & Hm)] _]|(_ & _ & He)]]]];
    try congruence.
  split; [|done]. exists p. eauto.
Qed.

(** X2. The decision table. When every pattern of the policy set compiles,
    the loop returns nil or the forbidden error: nil exactly when an
    allowing policy matches and no denying policy does, the forbidden error
    exactly when a denying policy matches or no policy matches. *)
Theorem verdict_table (v : revision) (r : Request) (P : Policies) :
  (∀ p, p ∈ P → well_formed p) →
  (doPoliciesAllow_of v r P = None ∨
   doPoliciesAllow_of v r P = Some (errors_New ErrForbidden)) ∧
  (doPoliciesAllow_of v r P = None ↔
   (∃ p, p ∈ P ∧ matches_of v p r ∧ AllowAccess p = true) ∧
   (∀ p, p ∈ P → matches_of v p r → AllowAccess p = true)) ∧
  (doPoliciesAllow_of v r P = Some (errors_New ErrForbidden) ↔
   (∃ p, p ∈ P ∧ matches_of v p r ∧ AllowAccess p = false) ∨
   (∀ p, p ∈ P → ¬ matches_of v p r)).
Proof.
  intros Hwf.
  destruct (doPoliciesAllow_of_classified v r P)
    as [(e & He & _)|[[(q & Hq & Hmq & Hd) Hres]|
                      [Hall [[[Ht|(q & Hq & Hmq)] Hres]|(_ & Hnone & Hres)]]]];
    try done.
  - by apply well_formed_no_failure in He.
  - rewrite Hres. split; [by right|]. split; split; try done.
    + intros [_ Hall]. specialize (Hall q Hq Hmq). congruence.
    + intros _. left. eauto.
  - rewrite Hres. split; [by left|]. split; split; try done.
    + intros _. split; [|done]. exists q. eauto.
    + intros [(p & Hp & Hm & Hd)|Hnone].
      * specialize (Hall p Hp Hm). congruence.
      * by destruct (Hnone q Hq).
  - rewrite Hres. split; [by right|]. split; split; try done.
    + intros [(p & Hp & Hm & _) _]. by destruct (Hnone p Hp).
    + intros _. by right.
Qed.

(** X3. Order does not matter: when every pattern of the policy set
    compiles, listing the policies in another order gives the same
    decision. *)
Theorem decision_order_independent (v : revision) (r : Request)
    (P P' : Policies) :
  P' ≡ₚ P →
  (∀ p, p ∈ P → well_formed p) →
  doPoliciesAllow_of v r P' = doPoliciesAllow_of v r P.
Proof.
  intros Hperm Hwf.
  assert (Hwf' : ∀ p, p ∈ P' → well_formed p).
  { intros p Hp. apply Hwf. by rewrite <- Hperm. }
  destruct (verdict_table v r P Hwf) as (Hcase & Hnil & _).
  destruct (verdict_table v r P' Hwf') as (Hcase' & Hnil' & _).
  assert (Hiff : doPoliciesAllow_of v r P' = None ↔
                 doPoliciesAllow_of v r P = None).
  { rewrite Hnil, Hnil'. split.
    - intros [(p & Hp & Hm) Hall]. split.
      + exists p. by rewrite <- Hperm.
      + intros q Hq. apply Hall. by rewrite Hperm.
    - intros [(p & Hp & Hm) Hall]. split.
      + exists p. by rewrite Hperm.
      + intros q Hq. apply Hall. by rewrite <- Hperm. }
  destruct Hcase as [HP|HP], Hcase' as [HP'|HP']; rewrite ?HP, ?HP'; try done.
  - apply Hiff in HP. congruence.
  - apply Hiff in HP'. congruence.
Qed.

Lemma loop_of_granted_bodies v r P1 q P2 allowed :
  loop_of v r (P1 ++ q :: P2) allowed = None →
  body_of v r q = Continue ∨ body_of v r q = SetAllowed.
Proof.
  revert allowed. induction P1 as [|p P1 IH]; intros allowed; simpl;
    rewrite loop_of_cons.
  - destruct (body_of v r q); [by left|done|by right].
  - destruct (body_of v r p); [apply IH|done|apply IH].
Qed.

Lemma loop_of_without_skipped v r q P1 P2 allowed :
  body_of v r q = Continue →
  loop_of v r (P1 ++ q :: P2) allowed = loop_of v r (P1 ++ P2) allowed.
Proof.
  intros Hq. revert allowed. induction P1 as [|p P1 IH]; intros allowed; simpl.
  - by rewrite loop_of_cons, Hq.
  - rewrite !loop_of_cons. destruct (body_of v r p); auto.
Qed.

Lemma loop_of_flag_monotone v r P allowed :
  loop_of v r P allowed = None → loop_of v r P true = None.
Proof.
  revert allowed. induction P as [|p P IH]; intros allowed.
  - by rewrite !loop_of_nil.
  - rewrite !loop_of_cons. destruct (body_of v r p); eauto.
Qed.

(** X4. A denying policy never grants: when the loop returns nil on a
    policy set that lists a denying policy, it returns nil without that
    policy too. So access that is not granted without the denying policy is
    not granted with it. *)
Theorem deny_policy_never_grants (v : revision) (r : Request) (q : Policy)
    (P1 P2 : Policies) :
  AllowAccess q = false →
  doPoliciesAllow_of v r (P1 ++ q :: P2) = None →
  doPoliciesAllow_of v r (P1 ++ P2) = None.
Proof.
  rewrite !doPoliciesAllow_of_loop. intros Hd Hres.
  destruct (loop_of_granted_bodies v r P1 q P2 false Hres) as [Hq|Hq].
  - by rewrite <- (loop_of_without_skipped v r q P1 P2 false Hq).
  - pose proof (body_of_classified v r q) as Hout. rewrite Hq in Hout.
    inversion Hout. congruence.
Qed.

(** X5. An allowing policy never revokes: when the loop returns nil on a
    policy set, it returns nil with one more allowing policy listed
    anywhere, as long as the patterns of that policy compile. *)
Theorem allow_policy_never_revokes (v : revision) (r : Request) (q : Policy)
    (P1 P2 : Policies) :
  AllowAccess q = true →
  well_formed q →
  doPoliciesAllow_of v r (P1 ++ P2) = None →
  doPoliciesAllow_of v r (P1 ++ q :: P2) = None.
Proof.
  rewrite !doPoliciesAllow_of_loop. intros Ha Hwf.
  assert (Hq : body_of v r q = Continue ∨ body_of v r q = SetAllowed).
  { destruct (body_of_classified v r q) as [Hn|Hm _|Hm Hd|e He];
      [by left|by right|congruence|].
    destruct (well_formed_no_failure [q] e); [|done].
    by intros p ->%list_elem_of_singleton. }
  generalize false.
  induction P1 as [|p P1 IH]; intros allowed; simpl.
  - rewrite loop_of_cons. destruct Hq as [-> | ->]; [done|].
    apply loop_of_flag_monotone.
  - rewrite !loop_of_cons. destruct (body_of v r p); auto.
Qed.

End Decisions.

(** ** The two revisions against each other *)

Section Revisions.
Context `{RegexCompiler}.

Lemma Match_compiling p L s :
  (∀ h, h ∈ L → ∃ reg, compiles_to p h reg) →
  Match p L s = (any_matchesb p L s, None).
Proof.
  induction L as [|h L IH]; intros Hc; [done|].
  destruct (Hc h) as [reg Hreg]; [by left|].
  unfold any_matchesb in *. simpl. unfold compiles_to in Hreg. rewrite Hreg.
  destruct (MatchString reg s); [done|]. simpl. apply IH.
  intros h' Hh'. apply Hc. by right.
Qed.

Lemma bodies_agree r p :
  well_formed p →
  ¬ (Resource r = "" ∧ GetResources p = []) →
  Ladon.doPoliciesAllow_body r p = LadonLegacy.doPoliciesAllow_body r p.
Proof.
  intros Hwf Hres.
  unfold Ladon.doPoliciesAllow_body, LadonLegacy.doPoliciesAllow_body,
    LadonLegacy.HasAccess, LadonLegacy.passesConditions.
  rewrite legacy_passesConditions_range. fold (passesConditions p r).
  rewrite (Match_compiling p (GetActions p)), (Match_compiling p (GetSubjects p)),
    (Match_compiling p (GetResources p))
    by (intros h Hh; apply Hwf;
        first [by apply actions_patterns|by apply subjects_patterns
              |by apply resources_patterns]).
  assert (Hcase : bool_decide (Resource r = "") &&
                  bool_decide (length (GetResources p) = 0) = false).
  { apply andb_false_iff.
    destruct (decide (Resource r = "")) as [Hr|Hr];
      [right|left; by apply bool_decide_eq_false_2].
    apply bool_decide_eq_false_2. intros Hlen%empty_list_length. by apply Hres. }
  rewrite Hcase.
  destruct (any_matchesb p (GetActions p) (Action r)),
    (any_matchesb p (GetSubjects p) (Subject r)),
    (any_matchesb p (GetResources p) (Resource r)),
    (bool_decide (0 < length (GetSubjects p))),
    (passesConditions p r), (AllowAccess p); reflexivity.
Qed.

(** X6. The two revisions decide alike where the case for the empty
    resource does not arise: when every pattern of the policy set compiles
    and no policy without resource patterns meets a request without
    resource, both loops return the same result. *)
Theorem revisions_agree (r : Request) (P : Policies) :
  (∀ p, p ∈ P → well_formed p) →
  (∀ p, p ∈ P → ¬ (Resource r = "" ∧ GetResources p = [])) →
  Ladon.doPoliciesAllow r P = LadonLegacy.doPoliciesAllow r P.
Proof.
  unfold Ladon.doPoliciesAllow, LadonLegacy.doPoliciesAllow.
  generalize false.
  induction P as [|p P IH]; intros allowed Hwf Hres; [done|]. simpl.
  rewrite <- bodies_agree by (first [apply Hwf|apply Hres]; left).
  assert (Hwf' : ∀ q, q ∈ P → well_formed q) by (intros; apply Hwf; by right).
  assert (Hres' : ∀ q, q ∈ P → ¬ (Resource r = "" ∧ GetResources q = []))
    by (intros; apply Hres; by right).
  destruct (Ladon.doPoliciesAllow_body r p); auto.
Qed.

(** X7. What [Match] returns, read against the patterns: true without an
    error exactly when the scan stops at a matching pattern, false without
    an error exactly when every pattern compiles and none matches, false
    with an error exactly when the scan stops at a pattern that fails to
    compile, the error being that of the pattern; and never true together
    with an error. *)
Theorem Match_characterised (p : Policy) (L : list string) (s : string) :
  (Match p L s = (true, None) ↔ scan_hits p L s) ∧
  (Match p L s = (false, None) ↔ none_matches p L s) ∧
  (∀ e, Match p L s = (false, Some e) ↔
        ∃ msg, e = ErrCompile msg ∧ scan_fails p L s msg) ∧
  (∀ e, Match p L s ≠ (true, Some e)).
Proof.
  destruct (Match_cases p L s) as [[Hh HM]|[[Hn HM]|(msg & Hf & HM)]];
    rewrite HM.
  - split; [done|]. split; [|split]; try done.
    + split; [done|]. intros Hn. rewrite (Match_none _ _ _ Hn) in HM. done.
    + intros e. split; [done|]. intros (msg & -> & Hf).
      rewrite (Match_fail _ _ _ _ Hf) in HM. done.
  - split; [|split; [done|split]]; try done.
    + split; [done|]. intros Hh. rewrite (Match_hit _ _ _ Hh) in HM. done.
    + intros e. split; [done|]. intros (msg & -> & Hf).
      rewrite (Match_fail _ _ _ _ Hf) in HM. done.
  - split; [|split; [|split]]; try done.
    + split; [done|]. intros Hh. rewrite (Match_hit _ _ _ Hh) in HM. done.
    + split; [done|]. intros Hn. rewrite (Match_none _ _ _ Hn) in HM. done.
    + intros e. split.
      * intros [= <-]. by exists msg.
      * intros (msg' & -> & Hf'). by rewrite <- (Match_fail _ _ _ _ Hf').
Qed.

(** X8. [Match] on a list put together from two: the result on the first
    list stands when it is a match or an error, and otherwise the second
    list decides. *)
Theorem Match_app (p : Policy) (L1 L2 : list string) (s : string) :
  Match p (L1 ++ L2) s =
  match Match p L1 s with
  | (false, None) => Match p L2 s
  | res => res
  end.
Proof.
  induction L1 as [|h L1 IH]; simpl; [done|].
  destruct (CompileRegex h (GetStartDelimiter p) (GetEndDelimiter p)); [|done].
  by destruct (MatchString r s).
Qed.

End Revisions.

(** ** Searching the Redis store *)

Section Search.
Context `{RedisHashClient} `{JSONDecoder} `{PkgErrors} `{RegexCompiler}.

Lemma Match_true_hits p L s : Match p L s = (true, None) → scan_hits p L s.
Proof.
  intros HM.
  destruct (Match_cases p L s) as [[Hh _]|[[_ HM']|(msg & _ & HM')]];
    [done|congruence..].
Qed.

Lemma loop_step subject x resp items ps :
  RedisStore.FindPoliciesForSubject_loop subject (x :: resp :: items) ps =
  match RedisStore.redisUnmarshalPolicy resp with
  | (_, Some err) => Returned ([], Some err)
  | (None, None) => Panicked
  | (Some p, None) =>
      match Match p (GetSubjects p) subject with
      | (_, Some err) => Returned ([], Some err)
      | (ok, None) =>
          if negb ok
          then RedisStore.FindPoliciesForSubject_loop subject items ps
          else RedisStore.FindPoliciesForSubject_loop subject items
                 (ps ++ [p : Policy])
      end
  end.
Proof. reflexivity. Qed.

Lemma found_in_later subject x y items p :
  found_in subject items p → found_in subject (x :: y :: items) p.
Proof.
  intros (q & resp & Hp & Hin & Hrest). exists q, resp.
  split; [done|]. split; [|done]. by do 2 right.
Qed.

Lemma loop_sound_step subject items :
  (∀ ps0,
     match RedisStore.FindPoliciesForSubject_loop subject items ps0 with
     | Returned res => res.1 = [] ∧ res.2 ≠ None
     | Panicked => True
     | Exhausted ps => ∀ p, p ∈ ps → p ∈ ps0 ∨ found_in subject items p
     end) ∧
  (∀ x ps0,
     match RedisStore.FindPoliciesForSubject_loop subject (x :: items) ps0 with
     | Returned res => res.1 = [] ∧ res.2 ≠ None
     | Panicked => True
     | Exhausted ps => ∀ p, p ∈ ps → p ∈ ps0 ∨ found_in subject (x :: items) p
     end).
Proof.
  induction items as [|resp items [IH0 IH1]].
  - split; intros; simpl; auto.
  - split; [apply IH1|]. intros x ps0. simpl.
    unfold RedisStore.redisUnmarshalPolicy.
    destruct (json_Unmarshal resp) as [[q|] [e|]] eqn:Hdec; simpl;
      try done; try (split; [reflexivity|discriminate]).
    destruct (Match q _ subject) as [[|] [e|]] eqn:HM;
      simpl; try (split; [reflexivity|discriminate]).
    + specialize (IH0 (ps0 ++ [q : Policy])).
      destruct (RedisStore.FindPoliciesForSubject_loop subject items
                  (ps0 ++ [q : Policy])); [exact IH0|exact I|].
      intros p Hp. destruct (IH0 p Hp) as [[Hold|Hq%list_elem_of_singleton]%elem_of_app|Hf].
      * by left.
      * right. exists q, resp. split; [done|]. split; [right; left|].
        split; [done|by apply Match_true_hits].
      * right. by apply found_in_later.
    + specialize (IH0 ps0).
      destruct (RedisStore.FindPoliciesForSubject_loop subject items ps0);
        [exact IH0|exact I|].
      intros p Hp. destruct (IH0 p Hp) as [Hold|Hf]; [by left|].
      right. by apply found_in_later.
Qed.

(** X9. What a search returns: with an error it returns no policy; without
    one, every policy returned was decoded from a value of the scan and has
    a subject pattern that matches the subject, so no policy without
    subject patterns is ever returned. *)
Theorem Find_returns_matching (m : RedisManager.t) (subject : string)
    (db : redis_state) (ps : Policies) (err : option error) :
  RedisStore.FindPoliciesForSubject m subject db = Returns (ps, err) →
  (err ≠ None → ps = []) ∧
  (∀ p, p ∈ ps →
        found_in subject (HScan (RedisManager.redisPoliciesKey m) db).1 p ∧
        GetSubjects p ≠ []).
Proof.
  unfold RedisStore.FindPoliciesForSubject.
  destruct (HScan (RedisManager.redisPoliciesKey m) db) as [items ierr].
  pose proof (proj1 (loop_sound_step subject items) []) as Hloop.
  destruct (RedisStore.FindPoliciesForSubject_loop subject items [])
    as [[res rerr]| |found]; [|done|].
  - intros [= -> ->]. simpl in Hloop. destruct Hloop as [-> _].
    split; [done|]. by intros p Hp%elem_of_nil.
  - destruct ierr as [e|]; intros [= <- <-].
    + split; [done|]. by intros p Hp%elem_of_nil.
    + split; [done|]. intros p Hp.
      destruct (Hloop p Hp) as [Hnil%elem_of_nil|Hf]; [done|].
      split; [done|]. destruct Hf as (q & resp & -> & _ & _ & Hhit).
      by apply scan_hits_nonempty in Hhit.
Qed.

Lemma loop_over_decodable subject pairs qs rest ps :
  decodes_to pairs qs → subjects_compile qs →
  RedisStore.FindPoliciesForSubject_loop subject
    (RefRedisHash.flatten pairs ++ rest) ps =
  RedisStore.FindPoliciesForSubject_loop subject rest (ps ++ kept subject qs).
Proof.
  intros Hdec. revert ps.
  induction Hdec as [|[f v] q pairs qs Hq Hdec IH]; intros ps Hc.
  - unfold kept. simpl. by rewrite app_nil_r.
  - assert (Hc' : subjects_compile qs) by (intros q' Hq'; apply Hc; by right).
    simpl in *. unfold RedisStore.redisUnmarshalPolicy. rewrite Hq.
    rewrite (Match_compiling q (GetSubjects q)) by (apply Hc; left).
    unfold kept. simpl.
    destruct (any_matchesb q _ subject); simpl.
    + rewrite IH by done. unfold kept. by rewrite <- app_assoc.
    + by rewrite IH.
Qed.

(** X10. A search over a store in good order: when the scan delivers
    fields and values in pairs without an error, every value decodes to a
    policy and all subject patterns compile, the search returns, in the
    order of the scan, exactly the policies with a subject pattern that
    matches. *)
Theorem Find_filters (m : RedisManager.t) (subject : string) (db : redis_state)
    (pairs : list (string * string)) (qs : list DefaultPolicy.t) :
  HScan (RedisManager.redisPoliciesKey m) db = (RefRedisHash.flatten pairs, None) →
  decodes_to pairs qs →
  subjects_compile qs →
  RedisStore.FindPoliciesForSubject m subject db = Returns (kept subject qs, None).
Proof.
  intros Hscan Hdec Hc. unfold RedisStore.FindPoliciesForSubject.
  rewrite Hscan. rewrite <- (app_nil_r (RefRedisHash.flatten pairs)).
  by rewrite (loop_over_decodable subject pairs qs [] [] Hdec Hc).
Qed.


End Search.

(** ** The Redis store on the in-memory hashes *)

Lemma string_app_length (a s : string) :
  String.length (a +:+ s) = String.length a + String.length s.
Proof.
  induction a as [|c a IH]; [done|].
  change (String c a +:+ s) with (String c (a +:+ s)). simpl. by rewrite IH.
Qed.

Lemma string_app_inj_r (a b s : string) : a +:+ s = b +:+ s → a = b.
Proof.
  revert b. induction a as [|c a IH]; intros [|c' b] Heq.
  - done.
  - apply (f_equal String.length) in Heq.
    rewrite !string_app_length in Heq. simpl in Heq. lia.
  - apply (f_equal String.length) in Heq.
    rewrite !string_app_length in Heq. simpl in Heq. lia.
  - change (String c (a +:+ s) = String c' (b +:+ s)) in Heq.
    injection Heq as -> Heq. f_equal. by apply IH.
Qed.

Lemma redisPoliciesKey_inj (m m' : RedisManager.t) :
  RedisManager.redisPoliciesKey m = RedisManager.redisPoliciesKey m' →
  RedisManager.keyPrefix m = RedisManager.keyPrefix m'.
Proof. apply string_app_inj_r. Qed.

Section InMemory.
Local Existing Instance RefRedis.client.
Local Existing Instance RefRedisHash.client.
Context `{JSONEncoder} `{JSONDecoder} `{PkgErrors} `{RegexCompiler}.

Lemma Get_stored m id db :
  RefRedis.outage db = None →
  RedisStore.Get m id db =
  match RefRedisHash.stored m db id with
  | Some payload => RedisStore.redisUnmarshalPolicy payload
  | None => (None, Some RedisStore.redisNotFound)
  end.
Proof.
  intros Hup. unfold RedisStore.Get, RefRedisHash.stored. simpl.
  unfold RefRedisHash.HGet. rewrite Hup.
  destruct (default ∅ (RefRedis.hashes db !! RedisManager.redisPoliciesKey m) !! id);
    [done|]. by rewrite decide_True.
Qed.

Lemma Create_fresh m policy db payload :
  RefRedis.outage db = None →
  RefRedisHash.stored m db (GetID policy) = None →
  json_Marshal policy = (payload, None) →
  RedisManager.Create m policy db =
  (None,
   {| RefRedis.hashes :=
        <[RedisManager.redisPoliciesKey m :=
            <[GetID policy := payload]>
              (default ∅ (RefRedis.hashes db !! RedisManager.redisPoliciesKey m))]>
          (RefRedis.hashes db);
      RefRedis.outage := None |}).
Proof.
  intros Hup Hfree Hjson. unfold RedisManager.Create. rewrite Hjson. simpl.
  unfold RefRedis.HSetNX. rewrite Hup.
  unfold RefRedisHash.stored in Hfree. by rewrite Hfree.
Qed.



Lemma Create_store m policy db res db' :
  RedisManager.Create m policy db = (res, db') →
  RefRedis.outage db' = RefRedis.outage db ∧
  ∀ m' id',
    RedisManager.keyPrefix m' ≠ RedisManager.keyPrefix m ∨ id' ≠ GetID policy →
    RefRedisHash.stored m' db' id' = RefRedisHash.stored m' db id'.
Proof.
  unfold RedisManager.Create.
  destruct (json_Marshal policy) as [payload [e|]]; [by intros [= _ <-]|].
  simpl. unfold RefRedis.HSetNX.
  destruct (RefRedis.outage db) as [e|] eqn:Hup; [by intros [= _ <-]|].
  destruct (default ∅ (RefRedis.hashes db !! RedisManager.redisPoliciesKey m)
              !! GetID policy) eqn:Hfield; [by intros [= _ <-]|].
  simpl. intros [= _ <-]. split; [done|].
  intros m' id' Hother. unfold RefRedisHash.stored. simpl.
  destruct (decide (RedisManager.redisPoliciesKey m
                    = RedisManager.redisPoliciesKey m')) as [Hkey|Hkey].
  - rewrite <- Hkey, lookup_insert_eq. simpl.
    destruct Hother as [Hp|Hid].
    + destruct Hp. symmetry. by apply redisPoliciesKey_inj.
    + by rewrite lookup_insert_ne.
  - by rewrite lookup_insert_ne.
Qed.

(** X14. [Create] touches one entry at most: whatever it returns, the
    entries under other identifiers, and all entries of a manager with
    another key prefix, read as before. *)
Theorem Create_leaves_others (m m' : RedisManager.t) (policy : Policy)
    (db db' : RefRedis.store) (res : option error) (id' : string) :
  RedisManager.Create m policy db = (res, db') →
  RedisManager.keyPrefix m' ≠ RedisManager.keyPrefix m ∨ id' ≠ GetID policy →
  RedisStore.Get m' id' db' = RedisStore.Get m' id' db.
Proof.
  intros Hc Hother. destruct (Create_store _ _ _ _ _ Hc) as [Hup Hst].
  unfold RedisStore.Get. simpl. unfold RefRedisHash.HGet. rewrite Hup.
  specialize (Hst m' id' Hother). unfold RefRedisHash.stored in Hst.
  by rewrite Hst.
Qed.

End InMemory.

Section SearchComplete.
Context `{RedisHashClient} `{JSONDecoder} `{PkgErrors} `{RegexCompiler}.

Lemma loop_complete subject pairs :
  ∀ ps0 ps,
    RedisStore.FindPoliciesForSubject_loop subject (RefRedisHash.flatten pairs) ps0
      = Exhausted ps →
    (∀ p, p ∈ ps0 → p ∈ ps) ∧
    (∀ f v (q : DefaultPolicy.t),
       (f, v) ∈ pairs → json_Unmarshal v = (Some q, None) →
       Match q (GetSubjects q) subject = (true, None) →
       (q : Policy) ∈ ps).
Proof.
  induction pairs as [|[f0 v0] pairs IH]; intros ps0 ps.
  - simpl. intros [= <-]. split; [done|]. by intros f v q Hin%elem_of_nil.
  - change (RefRedisHash.flatten ((f0, v0) :: pairs))
      with (f0 :: v0 :: RefRedisHash.flatten pairs).
    rewrite loop_step. unfold RedisStore.redisUnmarshalPolicy.
    destruct (json_Unmarshal v0) as [[q0|] [e|]] eqn:Hdec; try done.
    destruct (Match q0 (GetSubjects q0) subject) as [[|] [e|]] eqn:HM;
      try done; cbn [negb]; intros Hloop;
      destruct (IH _ _ Hloop) as [Hacc Hrest]; split.
    + intros p Hp. apply Hacc, elem_of_app. by left.
    + intros f v q [[= -> ->]|Hin]%elem_of_cons Hq HMq.
      * rewrite Hdec in Hq. injection Hq as <-.
        apply Hacc, elem_of_app. right. by left.
      * by apply (Hrest f v q).
    + done.
    + intros f v q [[= -> ->]|Hin]%elem_of_cons Hq HMq.
      * rewrite Hdec in Hq. injection Hq as <-. congruence.
      * by apply (Hrest f v q).
Qed.

End SearchComplete.

Section InMemoryRemoval.
Local Existing Instance RefRedis.client.
Local Existing Instance RefRedisHash.client.
Context `{JSONEncoder} `{JSONDecoder} `{PkgErrors} `{RegexCompiler}.

Lemma HDel_hash key field db key' :
  RefRedis.outage db = None →
  default ∅ (RefRedis.hashes (RefRedisHash.HDel key field db).2 !! key') =
  if decide (key' = key)
  then delete field (default ∅ (RefRedis.hashes db !! key))
  else default ∅ (RefRedis.hashes db !! key').
Proof.
  intros Hup. unfold RefRedisHash.HDel. rewrite Hup. simpl.
  destruct (decide (key' = key)) as [->|Hne].
  - case_decide as Hempty.
    + by rewrite lookup_delete_eq, Hempty.
    + by rewrite lookup_insert_eq.
  - case_decide; [by rewrite lookup_delete_ne|by rewrite lookup_insert_ne].
Qed.

Lemma HDel_answers key field db :
  RefRedis.outage db = None →
  (RefRedisHash.HDel key field db).1 = None ∧
  RefRedis.outage (RefRedisHash.HDel key field db).2 = None.
Proof. intros Hup. unfold RefRedisHash.HDel. by rewrite Hup. Qed.

(** X15. Removing and reading back: on a store that answers, [Delete]
    returns nil whether or not the identifier has an entry; afterwards
    [Get] of the identifier reports that it is not found, and the entries
    under other identifiers, and all entries of a manager with another key
    prefix, read as before. *)
Theorem Delete_then_Get (m : RedisManager.t) (id : string) (db : RefRedis.store) :
  RefRedis.outage db = None →
  ∃ db', RedisStore.Delete m id db = (None, db') ∧
         RedisStore.Get m id db' = (None, Some RedisStore.redisNotFound) ∧
         ∀ m' id',
           RedisManager.keyPrefix m' ≠ RedisManager.keyPrefix m ∨ id' ≠ id →
           RedisStore.Get m' id' db' = RedisStore.Get m' id' db.
Proof.
  intros Hup.
  destruct (HDel_answers (RedisManager.redisPoliciesKey m) id db Hup)
    as [Hres Hup'].
  exists (RefRedisHash.HDel (RedisManager.redisPoliciesKey m) id db).2.
  split; [|split].
  - unfold RedisStore.Delete. simpl.
    destruct (RefRedisHash.HDel (RedisManager.redisPoliciesKey m) id db).
    simpl in Hres. by rewrite Hres.
  - rewrite Get_stored by done. unfold RefRedisHash.stored.
    rewrite HDel_hash, decide_True by done. by rewrite lookup_delete_eq.
  - intros m' id' Hother. rewrite !Get_stored by done.
    unfold RefRedisHash.stored. rewrite HDel_hash by done.
    case_decide as Hkey; [|done].
    destruct Hother as [Hp|Hid].
    + destruct Hp. by apply redisPoliciesKey_inj.
    + rewrite Hkey. by rewrite lookup_delete_ne.
Qed.

(** X16. Creating and searching: on a store that answers and holds no
    entry for the identifier, after [Create] has returned nil, a search
    that returns without an error lists the policy decoded from the written
    payload whenever one of its subject patterns matches the subject. *)
Theorem Create_then_Find (m : RedisManager.t) (policy : Policy)
    (db db' : RefRedis.store) (payload subject : string)
    (q : DefaultPolicy.t) (ps : Policies) :
  RefRedis.outage db = None →
  RefRedisHash.stored m db (GetID policy) = None →
  json_Marshal policy = (payload, None) →
  json_Unmarshal payload = (Some q, None) →
  scan_hits q (GetSubjects q) subject →
  RedisManager.Create m policy db = (None, db') →
  RedisStore.FindPoliciesForSubject m subject db' = Returns (ps, None) →
  (q : Policy) ∈ ps.
Proof.
  intros Hup Hfree Hjson Hdec Hhit Hcreate.
  rewrite (Create_fresh m policy db payload Hup Hfree Hjson) in Hcreate.
  injection Hcreate as <-.
  unfold RedisStore.FindPoliciesForSubject. simpl. unfold RefRedisHash.HScan.
  simpl. rewrite lookup_insert_eq. simpl.
  set (h := <[GetID policy := payload]>
              (default ∅ (RefRedis.hashes db !! RedisManager.redisPoliciesKey m))).
  destruct (RedisStore.FindPoliciesForSubject_loop subject
              (RefRedisHash.flatten (map_to_list h)) []) as [res| |found] eqn:Hloop;
    [|done|].
  - intros [= ->].
    pose proof (proj1 (loop_sound_step subject
                         (RefRedisHash.flatten (map_to_list h))) []) as Hs.
    rewrite Hloop in Hs. simpl in Hs. by destruct Hs.
  - intros [= ->].
    destruct (loop_complete subject (map_to_list h) [] ps Hloop) as [_ Hall].
    apply (Hall (GetID policy) payload q); [|done|by apply Match_hit].
    apply elem_of_map_to_list. apply lookup_insert_eq.
Qed.

End InMemoryRemoval.

(** ** The link tables of the SQL store *)

Section Links.
Context `{SQLTx} `{SQLSupport}.

Lemma createLinkSQL_app table p pre post tx :
  SQLManager.createLinkSQL table p (pre ++ post) tx =
  match SQLManager.createLinkSQL table p pre tx with
  | Returns (None, tx') => SQLManager.createLinkSQL table p post tx'
  | res => res
  end.
Proof.
  revert tx. induction pre as [|t pre IH]; intros tx; simpl; [done|].
  destruct (CompileRegex t (GetStartDelimiter p) (GetEndDelimiter p)); [|done].
  destruct (tx_Exec _ _ tx) as [[e|] tx']; [|apply IH].
  by destruct (tx_Rollback tx') as [[rb|] tx''].
Qed.

(** X17. A pattern that does not compile is not reported by
    [createLinkSQL]: with such a pattern in the list the call never returns
    nil, and when the statements for the patterns before it are executed
    without an error, the call panics, the rows of those patterns written
    to the open transaction. *)
Theorem createLinkSQL_malformed (table : string) (p : Policy)
    (pre post : list string) (t msg : string) (tx : tx_state) :
  pattern_fails p t msg →
  (∀ tx', SQLManager.createLinkSQL table p (pre ++ t :: post) tx
          ≠ Returns (None, tx')) ∧
  (∀ tx', SQLManager.createLinkSQL table p pre tx = Returns (None, tx') →
          SQLManager.createLinkSQL table p (pre ++ t :: post) tx = Panics).
Proof.
  intros Hf. unfold pattern_fails in Hf.
  assert (Hhead : ∀ tx1, SQLManager.createLinkSQL table p (t :: post) tx1 = Panics).
  { intros tx1. simpl. by rewrite Hf. }
  split.
  - intros tx'. rewrite createLinkSQL_app.
    destruct (SQLManager.createLinkSQL table p pre tx) as [[[e|] tx1]|];
      [done|by rewrite Hhead|done].
  - intros tx' Hpre. by rewrite createLinkSQL_app, Hpre.
Qed.

(** X18. A statement that fails ends [createLinkSQL] at once: when the
    statements for the patterns before [t] are executed without an error
    and the one for [t] fails, the transaction is rolled back, the patterns
    after [t] are not looked at, and the call returns the error of the
    rollback if there is one, the error of the statement otherwise. *)
Theorem createLinkSQL_failed_statement (table : string) (p : Policy)
    (pre post : list string) (t : string) (reg : Regexp)
    (tx tx1 tx2 tx3 : tx_state) (err : error) (rb : option error) :
  SQLManager.createLinkSQL table p pre tx = Returns (None, tx1) →
  compiles_to p t reg →
  tx_Exec (Rebind (SQLManager.insert_link table))
    [GetID p; t; Regexp_String reg] tx1 = (Some err, tx2) →
  tx_Rollback tx2 = (rb, tx3) →
  SQLManager.createLinkSQL table p (pre ++ t :: post) tx =
  Returns (Some (errors_WithStack (default err rb)), tx3).
Proof.
  intros Hpre Hc Hexec Hrb. unfold compiles_to in Hc.
  rewrite createLinkSQL_app, Hpre. simpl. rewrite Hc, Hexec, Hrb.
  by destruct rb.
Qed.

End Links.

(** ** The further results on concrete policies and stores *)

Section ConcreteFurther.
Local Existing Instance RefCompiler.compiler.
Local Existing Instance RefRedis.client.
Local Existing Instance RefRedisHash.client.
Local Existing Instance RefRedisHash.encoder.
Local Existing Instance RefRedisHash.decoder.
Local Existing Instance RefRedisHash.pkg_errors.
Local Existing Instance RefSQL.tx.
Local Existing Instance RefSQL.support.

Import Examples.

Lemma well_formed_examples (P : Policies) :
  forallb well_formedb P = true → ∀ p, p ∈ P → well_formed p.
Proof.
  rewrite forallb_forall. intros Hall p Hp%list_elem_of_In.
  by apply well_formedb_sound, Hall.
Qed.

Lemma allowed_only_if_granted_witness :
  let g := fixed_store [peter_all] in
  let r := request "peter" "delete" "" in
  IsAllowed_of Current g r = None ∧
  ∃ P, FindPoliciesForSubject g (Subject r) = (P, None) ∧
       (∃ p, p ∈ P ∧ matches_of Current p r ∧ AllowAccess p = true) ∧
       (∀ p, p ∈ P → matches_of Current p r → AllowAccess p = true).
Proof.
  intros g r.
  assert (Hres : IsAllowed_of Current g r = None) by reflexivity.
  split; [done|]. exact (allowed_only_if_granted Current g r Hres).
Defined.

Lemma verdict_table_witness :
  let P := [peter_view; peter_deny] in
  let r := request "peter" "view" "a" in
  (∀ p, p ∈ P → well_formed p) ∧
  (doPoliciesAllow_of Current r P = None ∨
   doPoliciesAllow_of Current r P = Some (errors_New ErrForbidden)).
Proof.
  intros P r.
  assert (Hwf : ∀ p, p ∈ P → well_formed p)
    by (by apply well_formed_examples).
  split; [done|]. exact (proj1 (verdict_table Current r P Hwf)).
Defined.

Lemma decision_order_independent_witness :
  let P := [peter_view; peter_deny] in
  let P' := [peter_deny; peter_view] in
  let r := request "peter" "view" "a" in
  (P' ≡ₚ P ∧ ∀ p, p ∈ P → well_formed p) ∧
  doPoliciesAllow_of Current r P' = doPoliciesAllow_of Current r P.
Proof.
  intros P P' r.
  assert (Hperm : P' ≡ₚ P) by apply perm_swap.
  assert (Hwf : ∀ p, p ∈ P → well_formed p)
    by (by apply well_formed_examples).
  split; [done|]. exact (decision_order_independent Current r P P' Hperm Hwf).
Defined.

Lemma deny_policy_never_grants_witness :
  let q : Policy := policy "7" ["paul"] ["<.*>"] ["<.*>"] "deny" in
  let r := request "peter" "view" "a" in
  (AllowAccess q = false ∧
   doPoliciesAllow_of Current r ([peter_view] ++ q :: []) = None) ∧
  doPoliciesAllow_of Current r ([peter_view] ++ []) = None.
Proof.
  intros q r.
  assert (Hd : AllowAccess q = false) by reflexivity.
  assert (Hres : doPoliciesAllow_of Current r ([peter_view] ++ q :: []) = None)
    by reflexivity.
  split; [done|].
  exact (deny_policy_never_grants Current r q [peter_view] [] Hd Hres).
Defined.

Lemma allow_policy_never_revokes_witness :
  let r := request "peter" "view" "a" in
  (AllowAccess peter_all = true ∧ well_formed peter_all ∧
   doPoliciesAllow_of Current r ([peter_view] ++ []) = None) ∧
  doPoliciesAllow_of Current r ([peter_view] ++ peter_all :: []) = None.
Proof.
  intros r.
  assert (Ha : AllowAccess peter_all = true) by reflexivity.
  assert (Hwf : well_formed peter_all) by (by apply well_formedb_sound).
  assert (Hres : doPoliciesAllow_of Current r ([peter_view] ++ []) = None)
    by reflexivity.
  split; [done|].
  exact (allow_policy_never_revokes Current r peter_all [peter_view] [] Ha Hwf Hres).
Defined.

Lemma revisions_agree_witness :
  let P := [peter_view; peter_deny] in
  let r := request "peter" "view" "a" in
  ((∀ p, p ∈ P → well_formed p) ∧
   (∀ p, p ∈ P → ¬ (Resource r = "" ∧ GetResources p = []))) ∧
  Ladon.doPoliciesAllow r P = LadonLegacy.doPoliciesAllow r P.
Proof.
  intros P r.
  assert (Hwf : ∀ p, p ∈ P → well_formed p)
    by (by apply well_formed_examples).
  assert (Hres : ∀ p, p ∈ P → ¬ (Resource r = "" ∧ GetResources p = []))
    by (by intros p _ [Hr _]).
  split; [done|]. exact (revisions_agree r P Hwf Hres).
Defined.

Lemma Match_characterised_witness :
  let p : Policy := peter_view in
  Match p ["edit"; "view"] "view" = (true, None) ∧
  scan_hits p ["edit"; "view"] "view".
Proof.
  intros p.
  assert (HM : Match p ["edit"; "view"] "view" = (true, None)) by reflexivity.
  split; [done|].
  exact (proj1 (proj1 (Match_characterised p ["edit"; "view"] "view")) HM).
Defined.

Import StoreExamples.

Lemma Find_returns_matching_witness :
  RedisStore.FindPoliciesForSubject manager "peter" two_entries
    = Returns ([peter_view], None) ∧
  ∀ p, p ∈ [peter_view] →
       found_in "peter"
         (HScan (RedisManager.redisPoliciesKey manager) two_entries).1 p ∧
       GetSubjects p ≠ [].
Proof.
  assert (Hfind : RedisStore.FindPoliciesForSubject manager "peter" two_entries
                  = Returns ([peter_view], None)) by (vm_compute; reflexivity).
  split; [done|].
  exact (proj2 (Find_returns_matching manager "peter" two_entries
                  [peter_view] None Hfind)).
Defined.

Lemma Find_filters_witness :
  let db := one_entry "2" "2||allow|peter|<.*>|view" in
  let pairs := [("2", "2||allow|peter|<.*>|view")] in
  let qs := [policy "2" ["peter"] ["view"] ["<.*>"] "allow"] in
  (HScan (RedisManager.redisPoliciesKey manager) db
     = (RefRedisHash.flatten pairs, None) ∧
   decodes_to pairs qs ∧ subjects_compile qs) ∧
  RedisStore.FindPoliciesForSubject manager "peter" db
    = Returns (kept "peter" qs, None).
Proof.
  intros db pairs qs.
  assert (Hscan : HScan (RedisManager.redisPoliciesKey manager) db
                  = (RefRedisHash.flatten pairs, None))
    by (vm_compute; reflexivity).
  assert (Hdec : decodes_to pairs qs).
  { constructor; [vm_compute; reflexivity|constructor]. }
  assert (Hc : subjects_compile qs).
  { intros q ->%list_elem_of_singleton h ->%list_elem_of_singleton.
    eexists. vm_compute. reflexivity. }
  split; [done|].
  exact (Find_filters manager "peter" db pairs qs Hscan Hdec Hc).
Defined.




Lemma Create_leaves_others_witness :
  let db := one_entry "8" "8||allow|paul|<.*>|view" in
  let db' := (RedisManager.Create manager peter_view db).2 in
  (RedisManager.Create manager peter_view db = (None, db') ∧
   (RedisManager.keyPrefix manager ≠ RedisManager.keyPrefix manager ∨
    "8" ≠ GetID peter_view)) ∧
  RedisStore.Get manager "8" db' = RedisStore.Get manager "8" db.
Proof.
  intros db db'.
  assert (Hc : RedisManager.Create manager peter_view db = (None, db'))
    by (vm_compute; reflexivity).
  assert (Hother : RedisManager.keyPrefix manager ≠ RedisManager.keyPrefix manager ∨
                   "8" ≠ GetID peter_view) by (by right).
  split; [done|].
  exact (Create_leaves_others manager manager peter_view db db' None "8" Hc Hother).
Defined.

Lemma Delete_then_Get_witness :
  RefRedis.outage two_entries = None ∧
  ∃ db', RedisStore.Delete manager "2" two_entries = (None, db') ∧
         RedisStore.Get manager "2" db' = (None, Some RedisStore.redisNotFound) ∧
         ∀ m' id',
           RedisManager.keyPrefix m' ≠ RedisManager.keyPrefix manager ∨ id' ≠ "2" →
           RedisStore.Get m' id' db' = RedisStore.Get m' id' two_entries.
Proof.
  assert (Hup : RefRedis.outage two_entries = None) by reflexivity.
  split; [done|]. exact (Delete_then_Get manager "2" two_entries Hup).
Defined.

Lemma Create_then_Find_witness :
  let payload := "2||allow|peter|<.*>|view" in
  let q := policy "2" ["peter"] ["view"] ["<.*>"] "allow" in
  let db := one_entry "8" "8||allow|paul|<.*>|view" in
  let db' := (RedisManager.Create manager peter_view db).2 in
  (RefRedis.outage db = None ∧
   RefRedisHash.stored manager db (GetID peter_view) = None ∧
   json_Marshal peter_view = (payload, None) ∧
   json_Unmarshal payload = (Some q, None) ∧
   scan_hits q (GetSubjects q) "peter" ∧
   RedisManager.Create manager peter_view db = (None, db') ∧
   RedisStore.FindPoliciesForSubject manager "peter" db'
     = Returns ([q : Policy], None)) ∧
  (q : Policy) ∈ [q : Policy].
Proof.
  intros payload q db db'.
  assert (Hup : RefRedis.outage db = None) by reflexivity.
  assert (Hfree : RefRedisHash.stored manager db (GetID peter_view) = None)
    by (vm_compute; reflexivity).
  assert (Hjson : json_Marshal peter_view = (payload, None))
    by (vm_compute; reflexivity).
  assert (Hdec : json_Unmarshal payload = (Some q, None))
    by (vm_compute; reflexivity).
  assert (Hhit : scan_hits q (GetSubjects q) "peter")
    by (eapply scan_hits_head; reflexivity).
  assert (Hc : RedisManager.Create manager peter_view db = (None, db'))
    by (vm_compute; reflexivity).
  assert (Hfind : RedisStore.FindPoliciesForSubject manager "peter" db'
                  = Returns ([q : Policy], None)) by (vm_compute; reflexivity).
  split; [done|].
  exact (Create_then_Find manager peter_view db db' payload "peter" q
           [q : Policy] Hup Hfree Hjson Hdec Hhit Hc Hfind).
Defined.

Lemma createLinkSQL_malformed_witness :
  let tx0 := {| RefSQL.executed := []; RefSQL.fail_at := None |} in
  let tx1 := (tx_Exec (SQLManager.insert_link "ladon_policy_subject")
                ["2"; "peter"; "^peter$"] tx0).2 in
  (pattern_fails peter_view "<" "Unbalanced braces in <" ∧
   SQLManager.createLinkSQL "ladon_policy_subject" peter_view ["peter"] tx0
     = Returns (None, tx1)) ∧
  SQLManager.createLinkSQL "ladon_policy_subject" peter_view
    (["peter"] ++ "<" :: ["paul"]) tx0 = Panics.
Proof.
  intros tx0 tx1.
  assert (Hf : pattern_fails peter_view "<" "Unbalanced braces in <")
    by reflexivity.
  assert (Hpre : SQLManager.createLinkSQL "ladon_policy_subject" peter_view
                   ["peter"] tx0 = Returns (None, tx1))
    by (vm_compute; reflexivity).
  split; [done|].
  exact (proj2 (createLinkSQL_malformed "ladon_policy_subject" peter_view
                  ["peter"] ["paul"] "<" "Unbalanced braces in <" tx0 Hf)
           tx1 Hpre).
Defined.

Lemma createLinkSQL_failed_statement_witness :
  let tx0 := {| RefSQL.executed := []; RefSQL.fail_at := Some 1 |} in
  let tx1 := (tx_Exec (SQLManager.insert_link "ladon_policy_subject")
                ["2"; "peter"; "^peter$"] tx0).2 in
  let reg := [RefCompiler.Star RefCompiler.AnyChar] in
  let err := ErrString "sql: statement failed" in
  (SQLManager.createLinkSQL "ladon_policy_subject" peter_view ["peter"] tx0
     = Returns (None, tx1) ∧
   compiles_to peter_view "<.*>" reg ∧
   tx_Exec (Rebind (SQLManager.insert_link "ladon_policy_subject"))
     [GetID peter_view; "<.*>"; Regexp_String reg] tx1 = (Some err, tx1) ∧
   tx_Rollback tx1 = (None, tx0)) ∧
  SQLManager.createLinkSQL "ladon_policy_subject" peter_view
    (["peter"] ++ "<.*>" :: ["<"]) tx0
  = Returns (Some (errors_WithStack err), tx0).
Proof.
  intros tx0 tx1 reg err.
  assert (Hpre : SQLManager.createLinkSQL "ladon_policy_subject" peter_view
                   ["peter"] tx0 = Returns (None, tx1))
    by (vm_compute; reflexivity).
  assert (Hc : compiles_to peter_view "<.*>" reg) by reflexivity.
  assert (Hexec : tx_Exec (Rebind (SQLManager.insert_link "ladon_policy_subject"))
                    [GetID peter_view; "<.*>"; Regexp_String reg] tx1
                  = (Some err, tx1)) by (vm_compute; reflexivity).
  assert (Hrb : tx_Rollback tx1 = (None, tx0)) by reflexivity.
  split; [done|].
  exact (createLinkSQL_failed_statement "ladon_policy_subject" peter_view
           ["peter"] ["<"] "<.*>" reg tx0 tx1 tx1 tx0 err None
           Hpre Hc Hexec Hrb).
Defined.

End ConcreteFurther.
